(** * Explorer API digest: canonical filter string and HMAC-SHA1 signature

    A shallow embedding of [generateExplorerDigest] from [lib/api-client.js]
    together with the parts of the JavaScript runtime it relies on:
    strings as sequences of UTF-16 code units, [Object.keys], the default
    [Array.prototype.sort], [Array.prototype.join], and the
    [crypto.createHmac('sha1', ...)] primitive of Node; then of the two
    request functions of the same file, of [validateIdentifier] from
    [lib/validators.js], and of the tool handlers and the start-up check
    that call them, with [fetch], the URL parser and the identifier
    libraries as parameters.

    The digest is embedded twice.  First over the filter sets of the
    specification, whose values are strings, numbers and lists of these:
    there no conversion fails and the function is total under a valid
    secret.  Then, in the module [Full], over every value a parsed JSON
    text can hold, with the conversions that fail, the length of an
    argument list, a URL that does not parse and a network that fails;
    the request functions and the handlers are given at that level.
    [embed_digest] and [embed_wire_params] show that the two levels
    agree where both apply. *)

From Stdlib Require Import List ZArith NArith Lia Bool String Ascii.
From Stdlib Require Import Permutation Sorting.Sorted RelationClasses.
Import ListNotations.

Local Open Scope N_scope.

(* ------------------------------------------------------------------ *)
(** ** JavaScript strings *)

(** A JavaScript string is a finite sequence of 16-bit code units. *)
Definition code_unit := N.
Definition jsstring := list code_unit.

(** String literals of the source, which are all ASCII. *)
Definition js (s : string) : jsstring :=
  map N_of_ascii (list_ascii_of_string s).

(** [s.length] *)
Definition String_length (s : jsstring) : nat := List.length s.

(** Strict equality on strings, as used by [Array.prototype.includes]. *)
Fixpoint String_eqb (s t : jsstring) : bool :=
  match s, t with
  | [], [] => true
  | c :: s', d :: t' => (c =? d) && String_eqb s' t'
  | _, _ => false
  end.

(** The [<] relation of the language on strings: lexicographic on code
    units, a proper prefix being smaller. *)
Fixpoint String_ltb (s t : jsstring) : bool :=
  match s, t with
  | _, [] => false
  | [], _ :: _ => true
  | c :: s', d :: t' =>
      if c <? d then true
      else if d <? c then false
      else String_ltb s' t'
  end.

(* ------------------------------------------------------------------ *)
(** ** UTF-8 encoding of a string, as done by [hmac.update(string)] and by
       [createHmac] on a string key *)

Definition byte := N.

Definition is_high_surrogate (c : code_unit) : bool :=
  (0xD800 <=? c) && (c <=? 0xDBFF).
Definition is_low_surrogate (c : code_unit) : bool :=
  (0xDC00 <=? c) && (c <=? 0xDFFF).

Definition utf8_of_code_point (cp : N) : list byte :=
  if cp <? 0x80 then [cp]
  else if cp <? 0x800 then
    [N.lor 0xC0 (N.shiftr cp 6); N.lor 0x80 (N.land cp 0x3F)]
  else if cp <? 0x10000 then
    [N.lor 0xE0 (N.shiftr cp 12);
     N.lor 0x80 (N.land (N.shiftr cp 6) 0x3F);
     N.lor 0x80 (N.land cp 0x3F)]
  else
    [N.lor 0xF0 (N.shiftr cp 18);
     N.lor 0x80 (N.land (N.shiftr cp 12) 0x3F);
     N.lor 0x80 (N.land (N.shiftr cp 6) 0x3F);
     N.lor 0x80 (N.land cp 0x3F)].

Definition surrogate_pair (hi lo : code_unit) : N :=
  0x10000 + N.shiftl (hi - 0xD800) 10 + (lo - 0xDC00).

(** An unpaired surrogate is written as U+FFFD. *)
Definition replacement : N := 0xFFFD.

Fixpoint utf8 (s : jsstring) : list byte :=
  match s with
  | [] => []
  | c :: rest =>
      if is_high_surrogate c then
        match rest with
        | d :: rest' =>
            if is_low_surrogate d
            then utf8_of_code_point (surrogate_pair c d) ++ utf8 rest'
            else utf8_of_code_point replacement ++ utf8 rest
        | [] => utf8_of_code_point replacement
        end
      else if is_low_surrogate c then
        utf8_of_code_point replacement ++ utf8 rest
      else utf8_of_code_point c ++ utf8 rest
  end.

(* ------------------------------------------------------------------ *)
(** ** SHA-1 (FIPS 180-4) on byte sequences, 32-bit words as [N] *)

Module SHA1.

Definition mask32 (x : N) : N := N.land x 0xFFFFFFFF.
Definition add32 (x y : N) : N := mask32 (x + y).
Definition rotl (n x : N) : N :=
  mask32 (N.lor (N.shiftl x n) (N.shiftr x (32 - n))).
Definition not32 (x : N) : N := N.lxor x 0xFFFFFFFF.

Definition f (t : nat) (b c d : N) : N :=
  if (t <? 20)%nat then N.lor (N.land b c) (N.land (not32 b) d)
  else if (t <? 40)%nat then N.lxor (N.lxor b c) d
  else if (t <? 60)%nat then
    N.lor (N.lor (N.land b c) (N.land b d)) (N.land c d)
  else N.lxor (N.lxor b c) d.

Definition K (t : nat) : N :=
  if (t <? 20)%nat then 0x5A827999
  else if (t <? 40)%nat then 0x6ED9EBA1
  else if (t <? 60)%nat then 0x8F1BBCDC
  else 0xCA62C1D6.

Record state := mkState { h0 : N; h1 : N; h2 : N; h3 : N; h4 : N }.

Definition init : state :=
  mkState 0x67452301 0xEFCDAB89 0x98BADCFE 0x10325476 0xC3D2E1F0.

Definition round (t : nat) (w : N) (s : state) : state :=
  let temp :=
    add32 (add32 (add32 (add32 (rotl 5 (h0 s)) (f t (h1 s) (h2 s) (h3 s)))
                        (h4 s)) w) (K t) in
  mkState temp (h0 s) (rotl 30 (h1 s)) (h2 s) (h3 s).

(** [ws] holds the sixteen schedule words W(t) .. W(t+15). *)
Fixpoint rounds (n t : nat) (ws : list N) (s : state) : state :=
  match n with
  | O => s
  | S n' =>
      let w := nth 0 ws 0 in
      let wnew :=
        rotl 1 (N.lxor (N.lxor (N.lxor (nth 13 ws 0) (nth 8 ws 0))
                               (nth 2 ws 0)) w) in
      rounds n' (S t) (tl ws ++ [wnew]) (round t w s)
  end.

Fixpoint words_of_bytes (n : nat) (bs : list byte) : list N :=
  match n with
  | O => []
  | S n' =>
      let b i := nth i bs 0 in
      N.lor (N.lor (N.lor (N.shiftl (b 0%nat) 24) (N.shiftl (b 1%nat) 16))
                   (N.shiftl (b 2%nat) 8)) (b 3%nat)
      :: words_of_bytes n' (skipn 4 bs)
  end.

Definition compress (s : state) (block : list byte) : state :=
  let r := rounds 80 0 (words_of_bytes 16 block) s in
  mkState (add32 (h0 s) (h0 r)) (add32 (h1 s) (h1 r)) (add32 (h2 s) (h2 r))
          (add32 (h3 s) (h3 r)) (add32 (h4 s) (h4 r)).

Fixpoint process (n : nat) (bs : list byte) (s : state) : state :=
  match n with
  | O => s
  | S n' => process n' (skipn 64 bs) (compress s (firstn 64 bs))
  end.

Definition bytes_of_word (w : N) : list byte :=
  [N.land (N.shiftr w 24) 0xFF; N.land (N.shiftr w 16) 0xFF;
   N.land (N.shiftr w 8) 0xFF; N.land w 0xFF].

Definition pad (msg : list byte) : list byte :=
  let len := N.of_nat (List.length msg) in
  let zeros := N.to_nat ((119 - len mod 64) mod 64) in
  let bits := 8 * len in
  msg ++ [0x80] ++ repeat 0 zeros
      ++ bytes_of_word (N.shiftr bits 32) ++ bytes_of_word bits.

Definition hash (msg : list byte) : list byte :=
  let padded := pad msg in
  let s := process (List.length padded / 64) padded init in
  bytes_of_word (h0 s) ++ bytes_of_word (h1 s) ++ bytes_of_word (h2 s)
    ++ bytes_of_word (h3 s) ++ bytes_of_word (h4 s).

End SHA1.

(* ------------------------------------------------------------------ *)
(** ** HMAC (RFC 2104) instantiated with SHA-1 *)

Module HMAC.

Definition block_size : nat := 64.

Definition block_key (key : list byte) : list byte :=
  let k := if (block_size <? List.length key)%nat then SHA1.hash key else key in
  k ++ repeat 0 (block_size - List.length k).

Definition hmac_sha1 (key msg : list byte) : list byte :=
  let k := block_key key in
  let ipad := map (N.lxor 0x36) k in
  let opad := map (N.lxor 0x5C) k in
  SHA1.hash (opad ++ SHA1.hash (ipad ++ msg)).

End HMAC.

(** [buffer.toString('hex')]: two lowercase digits per byte. *)
Definition hex_digit (d : N) : code_unit :=
  if d <? 10 then 48 + d else 87 + d.

Definition hex (bs : list byte) : jsstring :=
  flat_map (fun b => [hex_digit (N.shiftr b 4); hex_digit (N.land b 0xF)]) bs.


(* ------------------------------------------------------------------ *)
(** ** Numbers and their string form *)

(** Least significant digit first. *)
Fixpoint digits_le (fuel : nat) (n : N) : list N :=
  match fuel with
  | O => []
  | S fuel' =>
      if n <? 10 then [n] else n mod 10 :: digits_le fuel' (n / 10)
  end.

Definition digit_char (d : N) : code_unit := 48 + d.

(** The decimal digits of a natural number, most significant first. *)
Definition decimal (n : N) : jsstring :=
  map digit_char (rev (digits_le (S (N.to_nat (N.log2 n))) n)).

(** A Number.  A finite Number other than zero is given by what
    [Number::toString] starts from: its sign, and the integers [s] and [n]
    such that the digits of [s], [k] in number, are the fewest for which
    s * 10^(n - k) has that Number as its value (so [s] does not end in
    a zero). *)
Inductive number : Type :=
| NaN
| Infinity (negative : bool)
| Zero
| Finite (negative : bool) (s : N) (n : Z).

(** Steps 6 to 10 of [Number::toString] for radix 10. *)
Definition finite_toString (s : N) (n : Z) : jsstring :=
  let digits := decimal s in
  let k := Z.of_nat (List.length digits) in
  if ((k <=? n) && (n <=? 21))%Z then
    digits ++ repeat 48 (Z.to_nat (n - k))
  else if ((0 <? n) && (n <=? 21))%Z then
    firstn (Z.to_nat n) digits ++ js "." ++ skipn (Z.to_nat n) digits
  else if ((-6 <? n) && (n <=? 0))%Z then
    js "0." ++ repeat 48 (Z.to_nat (- n)) ++ digits
  else
    let exponent :=
      (if (n - 1 <? 0)%Z then js "-" else js "+")
        ++ decimal (Z.to_N (Z.abs (n - 1))) in
    match digits with
    | [] => js "e" ++ exponent
    | [d] => [d] ++ js "e" ++ exponent
    | d :: rest => [d] ++ js "." ++ rest ++ js "e" ++ exponent
    end.

(** [Number::toString] *)
Definition Number_toString (x : number) : jsstring :=
  match x with
  | NaN => js "NaN"
  | Infinity false => js "Infinity"
  | Infinity true => js "-Infinity"
  | Zero => js "0"
  | Finite negative s n =>
      (if negative then js "-" else []) ++ finite_toString s n
  end.

(** The Number that an integer literal denotes: its digits without the
    trailing zeros, and their count before that. *)
Fixpoint strip_zeros (fuel : nat) (m : N) : N :=
  match fuel with
  | O => m
  | S fuel' =>
      if m =? 0 then m
      else if m mod 10 =? 0 then strip_zeros fuel' (m / 10) else m
  end.

Definition integer (negative : bool) (m : N) : number :=
  let k := List.length (decimal m) in
  Finite negative (strip_zeros k m) (Z.of_nat k).

Definition number_of_Z (z : Z) : number :=
  match z with
  | Z0 => Zero
  | Zpos p => integer false (Npos p)
  | Zneg p => integer true (Npos p)
  end.

(* ------------------------------------------------------------------ *)
(** ** Filter values and filter objects *)

(** A filter value as the specification has it: a scalar (string or
    number) or an array of scalars.  Values of any other kind ([null],
    [undefined], booleans, objects, nested arrays) are those of
    [Full.jsvalue] below. *)
Inductive scalar : Type :=
| SString (s : jsstring)
| SNumber (x : number).

Inductive value : Type :=
| VScalar (x : scalar)
| VArray (xs : list scalar).

(** The own enumerable properties of a plain object, in creation order.
    The property names of an object are pairwise distinct. *)
Definition object := list (jsstring * value).

Definition own_keys (o : object) : list jsstring := map fst o.

Definition well_formed (o : object) : Prop := NoDup (own_keys o).

(** [o[key]]; [None] stands for [undefined]. *)
Fixpoint Get (o : object) (key : jsstring) : option value :=
  match o with
  | [] => None
  | (k, v) :: o' => if String_eqb k key then Some v else Get o' key
  end.

(** The value of a sequence of decimal digit characters. *)
Definition is_digit (c : code_unit) : bool := (48 <=? c) && (c <=? 57).

Definition decimal_value (s : jsstring) : N :=
  fold_left (fun acc c => 10 * acc + (c - 48)) s 0.

(** A property name is an array index when it is the canonical string of
    an integer between 0 and 2^32 - 2. *)
Definition array_index (k : jsstring) : option N :=
  match k with
  | [] => None
  | _ :: _ =>
      if forallb is_digit k then
        let n := decimal_value k in
        if String_eqb (decimal n) k && (n <=? 0xFFFFFFFE) then Some n else None
      else None
  end.

Definition is_array_index (k : jsstring) : bool :=
  match array_index k with Some _ => true | None => false end.

Definition index_of (k : jsstring) : N :=
  match array_index k with Some n => n | None => 0 end.

Fixpoint insert_index (k : jsstring) (l : list jsstring) : list jsstring :=
  match l with
  | [] => [k]
  | k' :: l' =>
      if index_of k' <? index_of k then k' :: insert_index k l' else k :: l
  end.

(** [Object.keys(o)]: array indices in ascending numeric order, then the
    other names in creation order. *)
Definition Object_keys (o : object) : list jsstring :=
  fold_right insert_index [] (filter is_array_index (own_keys o))
    ++ filter (fun k => negb (is_array_index k)) (own_keys o).

(* ------------------------------------------------------------------ *)
(** ** Array methods used by the source *)

(** [array.includes(x)] on an array of strings. *)
Definition includes (l : list jsstring) (x : jsstring) : bool :=
  existsb (String_eqb x) l.

(** The comparison used by [sort()] without a comparator. *)
Definition SortCompare (x y : jsstring) : comparison :=
  if String_ltb x y then Lt
  else if String_ltb y x then Gt
  else Eq.

Fixpoint sort_insert (x : jsstring) (l : list jsstring) : list jsstring :=
  match l with
  | [] => [x]
  | y :: l' =>
      match SortCompare x y with
      | Gt => y :: sort_insert x l'
      | _ => x :: l
      end
  end.

(** [array.sort()] on an array of strings (stable). *)
Definition Array_sort (l : list jsstring) : list jsstring :=
  fold_right sort_insert [] l.

(** Elements of the [parts] array: a scalar, or [undefined] as [None]. *)
Definition element := option scalar.

Definition ToString (x : scalar) : jsstring :=
  match x with
  | SString s => s
  | SNumber x => Number_toString x
  end.

Definition element_string (e : element) : jsstring :=
  match e with
  | None => []
  | Some x => ToString x
  end.

(** The loop of [Array.prototype.join]: [R] is the string built so far and
    [k] the index of the next element. *)
Fixpoint join_loop (sep : jsstring) (k : nat) (R : jsstring)
    (rest : list element) : jsstring :=
  match rest with
  | [] => R
  | e :: rest' =>
      let R1 := if (0 <? k)%nat then R ++ sep else R in
      join_loop sep (S k) (R1 ++ element_string e) rest'
  end.

Definition Array_join (a : list element) (sep : jsstring) : jsstring :=
  join_loop sep 0 [] a.

(* ------------------------------------------------------------------ *)
(** ** [generateExplorerDigest] *)

Inductive result (A : Type) : Type :=
| Return (a : A)
| Throw (message : string).
Arguments Return {A} a.
Arguments Throw {A} message.

Definition excludeFromDigest : list jsstring :=
  [js "order"; js "page[number]"; js "page[size]"].

(** [Object.keys(filters).filter(key => !excludeFromDigest.includes(key)).sort()] *)
Definition filterKeys (filters : object) : list jsstring :=
  Array_sort
    (filter (fun key => negb (includes excludeFromDigest key))
            (Object_keys filters)).

(** The body of the [forEach] callback: the new contents of [parts].  The
    spread [parts.push(...value)] is the append of a list that fits an
    argument list; the one that does not is in [Full.push_key]. *)
Definition push_key (filters : object) (pushed : list element)
    (key : jsstring) : list element :=
  match Get filters key with
  | Some (VArray value) => (pushed ++ [Some (SString key)]) ++ map Some value
  | Some (VScalar value) => (pushed ++ [Some (SString key)]) ++ [Some value]
  | None => (pushed ++ [Some (SString key)]) ++ [None]
  end.

Definition parts (filters : object) : list element :=
  fold_left (push_key filters) (filterKeys filters) [].

Definition filterString (filters : object) : jsstring :=
  Array_join (parts filters) (js "|").

(** [!secret || secret.length < 16], the secret being a string or
    [undefined] ([None]). *)
Definition secret_rejected (secret : option jsstring) : bool :=
  match secret with
  | None => true
  | Some s =>
      (match s with [] => true | _ :: _ => false end)
      || (String_length s <? 16)%nat
  end.

Definition secret_error : string :=
  "ALTMETRIC_EXPLORER_API_SECRET must be at least 16 characters".

Definition generateExplorerDigest (filters : object)
    (secret : option jsstring) : result jsstring :=
  match secret with
  | None => Throw secret_error
  | Some s =>
      if secret_rejected secret then Throw secret_error
      else Return (hex (HMAC.hmac_sha1 (utf8 s) (utf8 (filterString filters))))
  end.

(** Shorthands for writing filter objects, and the secret of the tests. *)
Definition str (s : string) : value := VScalar (SString (js s)).
Definition num (n : Z) : value := VScalar (SNumber (number_of_Z n)).
Definition arr (l : list jsstring) : value := VArray (map SString l).
Definition validSecret : option jsstring :=
  Some (js "this-is-a-valid-secret-key").

(* ------------------------------------------------------------------ *)
(** ** The notions of the specification *)

(** The reserved names that take no part in the signature. *)
Definition ExcludedKeys (k : jsstring) : Prop :=
  k = js "order" \/ k = js "page[number]" \/ k = js "page[size]".

(** A usable secret: present, with at least 16 characters. *)
Definition valid_secret (secret : option jsstring) : Prop :=
  exists s, secret = Some s /\ (16 <= String_length s)%nat.

(** A secret that is missing, empty, or shorter than 16 characters. *)
Definition invalid_secret (secret : option jsstring) : Prop :=
  secret = None \/ secret = Some []
  \/ exists s, secret = Some s /\ (String_length s < 16)%nat.

(** Lexicographic order on sequences of numbers, one position at a time. *)
Inductive lex_lt : list N -> list N -> Prop :=
| lex_prefix : forall d t, lex_lt [] (d :: t)
| lex_head : forall c d s t, c < d -> lex_lt (c :: s) (d :: t)
| lex_tail : forall c s t, lex_lt s t -> lex_lt (c :: s) (c :: t).

Definition lex_le (s t : list N) : Prop := lex_lt s t \/ s = t.

(** The code points a string denotes: a high surrogate followed by a low
    surrogate is one supplementary code point, any other code unit stands
    for itself. *)
Fixpoint code_points (s : jsstring) : list N :=
  match s with
  | [] => []
  | c :: rest =>
      match rest with
      | d :: rest' =>
          if is_high_surrogate c && is_low_surrogate d
          then surrogate_pair c d :: code_points rest'
          else c :: code_points rest
      | [] => [c]
      end
  end.

(** Order by code point, as the specification words the sort. *)
Definition code_point_le (s t : jsstring) : Prop :=
  lex_le (code_points s) (code_points t).

(** Whether a high surrogate is followed by a low one somewhere in a
    string. *)
Fixpoint has_surrogate_pair (s : jsstring) : bool :=
  match s with
  | [] => false
  | c :: rest =>
      match rest with
      | d :: _ =>
          (is_high_surrogate c && is_low_surrogate d) || has_surrogate_pair rest
      | [] => false
      end
  end.

(** The claim that the signed keys come out in code point order. *)
Definition keys_in_code_point_order (filters : object) : Prop :=
  StronglySorted code_point_le (filterKeys filters).

(** Tokens joined by a separator that stands between neighbours only. *)
Fixpoint intercalate (sep : jsstring) (tokens : list jsstring) : jsstring :=
  match tokens with
  | [] => []
  | t :: rest =>
      match rest with
      | [] => t
      | _ :: _ => t ++ sep ++ intercalate sep rest
      end
  end.

(** The value tokens of a filter: every element of a list in its own
    order, the single value otherwise. *)
Definition value_tokens (v : value) : list jsstring :=
  match v with
  | VArray xs => map ToString xs
  | VScalar x => [ToString x]
  end.

(** A key followed by the tokens of its value. *)
Definition key_tokens (filters : object) (k : jsstring) : list jsstring :=
  k :: match Get filters k with
       | Some v => value_tokens v
       | None => [[]]
       end.

(** What one round of the [forEach] loop appends to [parts]. *)
Definition entry_parts (filters : object) (key : jsstring) : list element :=
  Some (SString key)
  :: match Get filters key with
     | Some (VArray xs) => map Some xs
     | Some (VScalar x) => [Some x]
     | None => [None]
     end.

(** The names of a filter set that are not reserved, in creation order. *)
Definition remaining_keys (filters : object) : list jsstring :=
  filter (fun k => negb (includes excludeFromDigest k)) (own_keys filters).

(** The canonical string over a given ordering of the remaining keys. *)
Definition canonical_string (filters : object) (sorted_keys : list jsstring)
    : jsstring :=
  intercalate (js "|") (flat_map (key_tokens filters) sorted_keys).



(** Lowercase hexadecimal digits. *)
Definition is_lower_hex (c : code_unit) : bool :=
  ((48 <=? c) && (c <=? 57)) || ((97 <=? c) && (c <=? 102)).


(** A decidable form of "pairwise distinct", to evaluate well-formedness
    on concrete filter sets. *)
Fixpoint distinctb (l : list jsstring) : bool :=
  match l with
  | [] => true
  | k :: l' => negb (existsb (String_eqb k) l') && distinctb l'
  end.

(* ------------------------------------------------------------------ *)
(** ** Requests: search parameters *)

(** How an [async] function settles: with a value, or with an [Error]
    carrying a message. *)
Inductive outcome (A : Type) : Type :=
| Resolved (a : A)
| Rejected (message : jsstring).
Arguments Resolved {A} a.
Arguments Rejected {A} message.

(** Conversion to a USVString, applied by [URLSearchParams] to names and
    values: an unpaired surrogate becomes U+FFFD. *)
Fixpoint toUSVString (s : jsstring) : jsstring :=
  match s with
  | [] => []
  | c :: rest =>
      if is_high_surrogate c then
        match rest with
        | d :: rest' =>
            if is_low_surrogate d
            then c :: d :: toUSVString rest'
            else replacement :: toUSVString rest
        | [] => [replacement]
        end
      else if is_low_surrogate c then replacement :: toUSVString rest
      else c :: toUSVString rest
  end.

(** The string form of a value; an array prints as its elements joined
    by commas. *)
Definition value_ToString (v : value) : jsstring :=
  match v with
  | VScalar x => ToString x
  | VArray xs => Array_join (map Some xs) (js ",")
  end.

(** The list of name-value pairs of a [URLSearchParams] object. *)
Definition URLSearchParams := list (jsstring * jsstring).

(** [searchParams.append(name, value)] *)
Definition append (sp : URLSearchParams) (name value : jsstring)
    : URLSearchParams :=
  sp ++ [(toUSVString name, toUSVString value)].

(** [Object.entries(o)]: each own key with the value read under it. *)
Definition Object_entries (o : object) : list (jsstring * option value) :=
  map (fun key => (key, Get o key)) (Object_keys o).

(** A string that may be [undefined]: its truth value and string form. *)
Definition truthy_string (s : option jsstring) : bool :=
  match s with
  | Some (_ :: _) => true
  | _ => false
  end.

Definition string_or_undefined (s : option jsstring) : jsstring :=
  match s with
  | Some k => k
  | None => js "undefined"
  end.

Definition details_key_error : jsstring :=
  js "ALTMETRIC_DETAILS_API_KEY is required for Details Page API calls".

Definition explorer_key_error : jsstring :=
  js "ALTMETRIC_EXPLORER_API_KEY is required for Explorer API calls".

Definition request_failed (st : Z) : jsstring :=
  js "API request failed with status " ++ Number_toString (number_of_Z st).

Definition nonFilterParams : list jsstring :=
  [js "page[number]"; js "page[size]"; js "order"].

(** The callback of [Object.entries(filters).forEach] in
    [makeExplorerApiRequest], on entries of the typed forms, where no
    conversion fails; [None] is [undefined]. *)
Definition append_filter (sp : URLSearchParams)
    (entry : jsstring * option value) : URLSearchParams :=
  let key := fst entry in
  match snd entry with
  | None => sp
  | Some value =>
      if includes nonFilterParams key then append sp key (value_ToString value)
      else
        match value with
        | VArray vs =>
            fold_left
              (fun sp v => append sp (js "filter[" ++ key ++ js "][]") (ToString v))
              vs sp
        | VScalar x => append sp (js "filter[" ++ key ++ js "]") (ToString x)
        end
  end.

(** The query parameters one filter entry stands for. *)
Definition entry_params (key : jsstring) (v : value) : URLSearchParams :=
  if includes nonFilterParams key
  then [(toUSVString key, toUSVString (value_ToString v))]
  else
    match v with
    | VArray vs =>
        map (fun x => (toUSVString (js "filter[" ++ key ++ js "][]"),
                       toUSVString (ToString x))) vs
    | VScalar x =>
        [(toUSVString (js "filter[" ++ key ++ js "]"), toUSVString (ToString x))]
    end.

(** The filter part of the query: the entries in [Object.keys] order. *)
Definition wire_params (filters : object) : URLSearchParams :=
  flat_map (fun key => match Get filters key with
                       | Some v => entry_params key v
                       | None => []
                       end)
           (Object_keys filters).

(** Tokens written one after the other, each behind a separator. *)
Definition tail_join (sep : jsstring) (ts : list jsstring) : jsstring :=
  List.concat (map (app sep) ts).

(** The tokens of the signed string. *)
Definition signed_tokens (filters : object) : list jsstring :=
  flat_map (key_tokens filters) (filterKeys filters).

(* ------------------------------------------------------------------ *)
(** ** Identifier validation *)

(** The [extract] functions of the identifier libraries, which are not
    part of the repository: the identifiers found in a string, or nothing
    at all. *)
Record extractors : Type := mkExtractors {
  extractDoi : jsstring -> option (list jsstring);
  extractPubmed : jsstring -> option (list jsstring);
  extractArxiv : jsstring -> option (list jsstring);
  extractBibcode : jsstring -> option (list jsstring);
  extractHandle : jsstring -> option (list jsstring);
  extractNct : jsstring -> option (list jsstring);
  extractRepec : jsstring -> option (list jsstring);
  extractUrn : jsstring -> option (list jsstring)
}.

(** [!extracted || extracted.length === 0] *)
Definition nothing_extracted (extracted : option (list jsstring)) : bool :=
  match extracted with
  | None => true
  | Some l => (List.length l =? 0)%nat
  end.

(** [/^\d+$/.test(identifier)] *)
Definition numeric (identifier : jsstring) : bool :=
  match identifier with
  | [] => false
  | _ :: _ => forallb is_digit identifier
  end.

(** One block [if (identifier_type === name) { ... throw ... }] followed
    by the rest of the function. *)
Definition library_check (name : string)
    (extract : jsstring -> option (list jsstring)) (message : jsstring)
    (identifier identifier_type : jsstring) (rest : outcome unit)
    : outcome unit :=
  if String_eqb identifier_type (js name) then
    if nothing_extracted (extract identifier) then Rejected message else rest
  else rest.

(** [validateIdentifier]: returns, or throws an error with a message. *)
Definition validateIdentifier (lib : extractors)
    (identifier identifier_type : jsstring) : outcome unit :=
  if String_eqb identifier_type (js "id") && negb (numeric identifier) then
    Rejected (js "Invalid Altmetric ID format: " ++ identifier
                ++ js ". Must be numeric.")
  else
  library_check "doi" (extractDoi lib)
    (js "Invalid DOI format: " ++ identifier) identifier identifier_type
  (library_check "pmid" (extractPubmed lib)
    (js "Invalid PubMed ID format: " ++ identifier) identifier identifier_type
  (library_check "arxiv" (extractArxiv lib)
    (js "Invalid arXiv ID format: " ++ identifier) identifier identifier_type
  (library_check "ads" (extractBibcode lib)
    (js "Invalid ADS Bibcode format: " ++ identifier) identifier identifier_type
  (library_check "handle" (extractHandle lib)
    (js "Invalid Handle format: " ++ identifier) identifier identifier_type
  (library_check "nct_id" (extractNct lib)
    (js "Invalid NCT ID format: " ++ identifier
       ++ js ". Expected format: NCT########") identifier identifier_type
  (library_check "repec" (extractRepec lib)
    (js "Invalid RePEc ID format: " ++ identifier) identifier identifier_type
  (library_check "urn" (extractUrn lib)
    (js "Invalid URN format: " ++ identifier) identifier identifier_type
  (Resolved tt)))))))).

(** Two stand-ins for the libraries, to evaluate the function: one finds
    nothing in any string, one returns every string as an identifier. *)
Definition finds_nothing : extractors :=
  let none := fun _ : jsstring => Some (@nil jsstring) in
  mkExtractors none none none none none none none none.

Definition finds_all : extractors :=
  let all := fun s : jsstring => Some [s] in
  mkExtractors all all all all all all all all.

(** The identifier types that have a check, and the library of each. *)
Definition validated_types : list jsstring :=
  [js "id"; js "doi"; js "pmid"; js "arxiv"; js "ads"; js "handle";
   js "nct_id"; js "repec"; js "urn"].

Definition library_types
    : list (jsstring * (extractors -> jsstring -> option (list jsstring))) :=
  [(js "doi", extractDoi); (js "pmid", extractPubmed);
   (js "arxiv", extractArxiv); (js "ads", extractBibcode);
   (js "handle", extractHandle); (js "nct_id", extractNct);
   (js "repec", extractRepec); (js "urn", extractUrn)].

(* ------------------------------------------------------------------ *)
(** ** [encodeURIComponent] *)

(** Letters, digits and the marks [-_.!~*'()] are left as they are. *)
Definition uriUnreserved (c : code_unit) : bool :=
  ((65 <=? c) && (c <=? 90)) || ((97 <=? c) && (c <=? 122))
  || ((48 <=? c) && (c <=? 57))
  || existsb (N.eqb c) [45; 95; 46; 33; 126; 42; 39; 40; 41].

Definition HEX_digit (d : N) : code_unit :=
  if d <? 10 then 48 + d else 55 + d.

(** One octet as a percent sign and two uppercase hexadecimal digits. *)
Definition percent (b : byte) : jsstring :=
  [37; HEX_digit (N.land (N.shiftr b 4) 0xF); HEX_digit (N.land b 0xF)].

Definition uri_malformed : jsstring := js "URI malformed".

Definition prepend (pre : jsstring) (r : outcome jsstring) : outcome jsstring :=
  match r with
  | Resolved s => Resolved (pre ++ s)
  | Rejected m => Rejected m
  end.

(** Every other character is written as the escaped octets of its UTF-8
    form; an unpaired surrogate is a [URIError]. *)
Fixpoint encodeURIComponent (s : jsstring) : outcome jsstring :=
  match s with
  | [] => Resolved []
  | c :: rest =>
      if uriUnreserved c then prepend [c] (encodeURIComponent rest)
      else if is_high_surrogate c then
        match rest with
        | d :: rest' =>
            if is_low_surrogate d
            then prepend
                   (flat_map percent
                      (utf8_of_code_point (surrogate_pair c d)))
                   (encodeURIComponent rest')
            else Rejected uri_malformed
        | [] => Rejected uri_malformed
        end
      else if is_low_surrogate c then Rejected uri_malformed
      else prepend (flat_map percent (utf8_of_code_point c))
                   (encodeURIComponent rest)
  end.

(** The characters an encoded component can hold: the unreserved ones
    and the percent sign. *)
Definition uri_safe (c : code_unit) : bool := uriUnreserved c || (c =? 37).

(* ------------------------------------------------------------------ *)
(** ** Tool handlers *)

(** [o[key] = v] on a plain object: an existing property keeps its place. *)
Fixpoint Set_property (o : object) (key : jsstring) (v : value) : object :=
  match o with
  | [] => [(key, v)]
  | (k, v') :: o' =>
      if String_eqb k key then (k, v) :: o'
      else (k, v') :: Set_property o' key v
  end.

(** The truth value of an argument: [undefined], the empty string, zero
    and [NaN] are false, every array is true. *)
Definition truthy (v : option value) : bool :=
  match v with
  | None => false
  | Some (VScalar (SString s)) =>
      match s with [] => false | _ :: _ => true end
  | Some (VScalar (SNumber x)) =>
      match x with NaN | Zero => false | _ => true end
  | Some (VArray _) => true
  end.

(** One statement [if (arg) filters[name] = arg], for the pair
    [(arg, name)]. *)
Definition assign_if_truthy (args : object) (filters : object)
    (field : jsstring * jsstring) : object :=
  match Get args (fst field) with
  | Some v =>
      if truthy (Some v) then Set_property filters (snd field) v else filters
  | None => filters
  end.

(** The run of such statements that fills the empty object. *)
Definition build_filters (fields : list (jsstring * jsstring)) (args : object)
    : object :=
  fold_left (assign_if_truthy args) fields [].

(** The statements of the six Explorer tools, in source order. *)
Definition same_name (name : string) : jsstring * jsstring := (js name, js name).
Definition page_number_field : jsstring * jsstring :=
  (js "page_number", js "page[number]").
Definition page_size_field : jsstring * jsstring :=
  (js "page_size", js "page[size]").

Definition research_outputs_fields : list (jsstring * jsstring) :=
  [same_name "q"; same_name "scope"; same_name "title"; same_name "published_after";
   same_name "published_before"; same_name "timeframe"; same_name "orcid"; same_name "type";
   same_name "journal_id"; same_name "author_id"; same_name "department_id"; same_name "order";
   page_number_field; page_size_field].

Definition attention_summary_fields : list (jsstring * jsstring) :=
  [same_name "q"; same_name "scope"; same_name "published_after"; same_name "published_before";
   same_name "timeframe"; same_name "type"; same_name "journal_id"; same_name "author_id"].

Definition mentions_fields : list (jsstring * jsstring) :=
  [same_name "q"; same_name "scope"; same_name "mentioned_after"; same_name "mentioned_before";
   same_name "countries"; same_name "timeframe"; same_name "type";
   page_number_field; page_size_field].

Definition demographics_fields : list (jsstring * jsstring) :=
  [same_name "q"; same_name "scope"; same_name "published_after"; same_name "published_before";
   same_name "timeframe"; same_name "type"; same_name "journal_id"; same_name "author_id"].

Definition mention_sources_fields : list (jsstring * jsstring) :=
  [same_name "q"; same_name "scope"; same_name "mentioned_after"; same_name "mentioned_before";
   same_name "timeframe"; same_name "source_type"; same_name "countries";
   page_number_field; page_size_field].

Definition journals_fields : list (jsstring * jsstring) :=
  [same_name "q"; same_name "journal_id"; same_name "issn"; same_name "subject"; same_name "publisher";
   same_name "order"; page_number_field; page_size_field].

Definition explorer_tools : list (jsstring * list (jsstring * jsstring)) :=
  [(js "/explorer/api/research_outputs", research_outputs_fields);
   (js "/explorer/api/research_outputs/attention", attention_summary_fields);
   (js "/explorer/api/research_outputs/mentions", mentions_fields);
   (js "/explorer/api/research_outputs/demographics", demographics_fields);
   (js "/explorer/api/research_outputs/mention_sources",
    mention_sources_fields);
   (js "/explorer/api/research_outputs/journals", journals_fields)].

(** The configuration closed over by the handlers. *)
Record config : Type := mkConfig {
  detailsApiKey : option jsstring;
  detailsApiBaseUrl : jsstring;
  explorerApiKey : option jsstring;
  explorerApiSecret : option jsstring;
  explorerApiBaseUrl : jsstring
}.

(** The check made when the server starts, on the three environment
    variables: [false] stands for [process.exit(1)]. *)
Definition hasDetailsApi (DETAILS_API_KEY : option jsstring) : bool :=
  truthy_string DETAILS_API_KEY.

Definition hasExplorerApi (EXPLORER_API_KEY EXPLORER_API_SECRET
    : option jsstring) : bool :=
  truthy_string EXPLORER_API_KEY && truthy_string EXPLORER_API_SECRET.

Definition server_starts (DETAILS_API_KEY EXPLORER_API_KEY
    EXPLORER_API_SECRET : option jsstring) : bool :=
  negb (negb (hasDetailsApi DETAILS_API_KEY)
        && negb (hasExplorerApi EXPLORER_API_KEY EXPLORER_API_SECRET)).

(** The text of the single content item a handler returns;
    [stringify] stands for [JSON.stringify(data, null, 2)]. *)
Definition content_text {J : Type} (stringify : J -> jsstring)
    (r : list jsstring * outcome J) : list jsstring * outcome jsstring :=
  (fst r, match snd r with
          | Resolved data => Resolved (stringify data)
          | Rejected m => Rejected m
          end).

(** The value a run of statements leaves under a name: that of the last
    statement for this name whose argument is true. *)
Fixpoint assigned (fields : list (jsstring * jsstring)) (args : object)
    (name : jsstring) : option value :=
  match fields with
  | [] => None
  | field :: rest =>
      match assigned rest args name with
      | Some v => Some v
      | None =>
          if String_eqb (snd field) name && truthy (Get args (fst field))
          then Get args (fst field) else None
      end
  end.

(** What one statement adds to an object that lacks its name. *)
Definition field_entry (args : object) (field : jsstring * jsstring)
    : object :=
  match Get args (fst field) with
  | Some v => if truthy (Some v) then [(snd field, v)] else []
  | None => []
  end.

(** The arguments that name the sort order and the page. *)
Definition paging_arguments : list jsstring :=
  [js "order"; js "page_number"; js "page_size"].

(** Statements that put the paging arguments, and only those, under
    reserved names. *)
Definition paging_is_reserved (fields : list (jsstring * jsstring)) : bool :=
  forallb (fun field => Bool.eqb (includes paging_arguments (fst field))
                                 (includes excludeFromDigest (snd field)))
          fields.

(* ------------------------------------------------------------------ *)
(** ** The same functions over every value *)

(** The filter values above are strings, numbers and lists of these.  The
    functions of [api-client.js] take whatever the caller has put into
    the object; here they are once more, over every value a parsed JSON
    text can hold, and [undefined].  Objects are plain: their prototype is
    [Object.prototype] and they hold no function.  A conversion that
    fails, the length of an argument list, the parsing of a URL and a
    network that fails are part of this model. *)
Module Full.

#[warnings="-register-all"] Inductive jsvalue : Type :=
| JUndefined
| JNull
| JBoolean (b : bool)
| JNumber (x : number)
| JString (s : jsstring)
| JArray (elements : list jsvalue)
| JObject (properties : list (jsstring * jsvalue)).

(** The objects of the forms above, before the name is taken. *)
Definition typed_object : Type := object.

Definition object := list (jsstring * jsvalue).

Definition own_keys (o : object) : list jsstring := map fst o.

Definition well_formed (o : object) : Prop := NoDup (own_keys o).

(** [o[key]] for a plain object and a name other than those of
    [Object.prototype]. *)
Fixpoint Get (o : object) (key : jsstring) : jsvalue :=
  match o with
  | [] => JUndefined
  | (k, v) :: o' => if String_eqb k key then v else Get o' key
  end.

Definition Object_keys (o : object) : list jsstring :=
  fold_right insert_index [] (filter is_array_index (own_keys o))
    ++ filter (fun k => negb (is_array_index k)) (own_keys o).

Definition Object_entries (o : object) : list (jsstring * jsvalue) :=
  map (fun key => (key, Get o key)) (Object_keys o).

(** The message of the [TypeError] of a conversion that finds no
    primitive value, and of the [RangeError] of a call with too many
    arguments. *)
Definition type_error : string := "Cannot convert object to primitive value".
Definition range_error : string := "Maximum call stack size exceeded".

(** The loop of [Array.prototype.join], given the string of an element:
    [R] is the string built so far and [k] the index of the next element.
    It stops at the first element that has no string. *)
Definition join_with {A : Type} (string_of : A -> option jsstring)
    (sep : jsstring) : nat -> jsstring -> list A -> option jsstring :=
  fix loop (k : nat) (R : jsstring) (rest : list A) {struct rest} :=
    match rest with
    | [] => Some R
    | e :: rest' =>
        let R1 := if (0 <? k)%nat then R ++ sep else R in
        match string_of e with
        | Some next => loop (S k) (R1 ++ next) rest'
        | None => None
        end
    end.

(** [ToString]; [None] stands for a [TypeError].  An array is joined by
    commas, [undefined] and [null] elements giving the empty string.  A
    plain object answers with [Object.prototype.toString], unless it has
    a property [toString] of its own: this is not a function, and
    [Object.prototype.valueOf] returns no primitive value. *)
Fixpoint ToString (v : jsvalue) : option jsstring :=
  match v with
  | JUndefined => Some (js "undefined")
  | JNull => Some (js "null")
  | JBoolean true => Some (js "true")
  | JBoolean false => Some (js "false")
  | JNumber x => Some (Number_toString x)
  | JString s => Some s
  | JArray elements =>
      join_with (fun e => match e with
                          | JUndefined | JNull => Some []
                          | _ => ToString e
                          end)
                (js ",") 0 [] elements
  | JObject properties =>
      if includes (map fst properties) (js "toString") then None
      else Some (js "[object Object]")
  end.

Definition element_string (e : jsvalue) : option jsstring :=
  match e with
  | JUndefined | JNull => Some []
  | _ => ToString e
  end.

Definition join_loop (sep : jsstring) (k : nat) (R : jsstring)
    (rest : list jsvalue) : option jsstring :=
  join_with element_string sep k R rest.

Definition Array_join (a : list jsvalue) (sep : jsstring) : option jsstring :=
  join_loop sep 0 [] a.

Definition filterKeys (filters : object) : list jsstring :=
  Array_sort
    (filter (fun key => negb (includes excludeFromDigest key))
            (Object_keys filters)).

(** The values of the forms above among all values. *)
Definition embed_scalar (x : scalar) : jsvalue :=
  match x with
  | SString s => JString s
  | SNumber x => JNumber x
  end.

Definition embed_value (v : value) : jsvalue :=
  match v with
  | VScalar x => embed_scalar x
  | VArray xs => JArray (map embed_scalar xs)
  end.

Definition embed (o : typed_object) : object :=
  map (fun entry => (fst entry, embed_value (snd entry))) o.

(** An element of the typed [parts] array among all values. *)
Definition embed_element (e : element) : jsvalue :=
  match e with
  | Some x => embed_scalar x
  | None => JUndefined
  end.

(** The truth value of any value. *)
Definition truthy (v : jsvalue) : bool :=
  match v with
  | JUndefined | JNull => false
  | JBoolean b => b
  | JNumber x => match x with NaN | Zero => false | _ => true end
  | JString s => match s with [] => false | _ :: _ => true end
  | JArray _ | JObject _ => true
  end.

Fixpoint Set_property (o : object) (key : jsstring) (v : jsvalue) : object :=
  match o with
  | [] => [(key, v)]
  | (k, v') :: o' =>
      if String_eqb k key then (k, v) :: o'
      else (k, v') :: Set_property o' key v
  end.

(** One statement [if (arg) filters[name] = arg]. *)
Definition assign_if_truthy (args : object) (filters : object)
    (field : jsstring * jsstring) : object :=
  let arg := Get args (fst field) in
  if truthy arg then Set_property filters (snd field) arg else filters.

Definition build_filters (fields : list (jsstring * jsstring)) (args : object)
    : object :=
  fold_left (assign_if_truthy args) fields [].

(** [searchParams.append(name, value)] for any value: the value is
    converted to a string first. *)
Definition append_value (sp : URLSearchParams) (name : jsstring)
    (value : jsvalue) : option URLSearchParams :=
  match ToString value with
  | Some s => Some (append sp name s)
  | None => None
  end.

(** A [forEach] whose callback may throw: nothing is done after that. *)
Definition forEach {S A : Type} (callback : S -> A -> option S)
    (l : list A) (state : option S) : option S :=
  fold_left (fun state a => match state with
                            | Some s => callback s a
                            | None => None
                            end) l state.

(** The callback of [Object.entries(params).forEach] in
    [makeDetailsApiRequest]. *)
Definition append_param (sp : URLSearchParams) (entry : jsstring * jsvalue)
    : option URLSearchParams :=
  match snd entry with
  | JUndefined | JNull => Some sp
  | value => append_value sp (fst entry) value
  end.

(** The callback of [Object.entries(filters).forEach] in
    [makeExplorerApiRequest]. *)
Definition append_filter (sp : URLSearchParams) (entry : jsstring * jsvalue)
    : option URLSearchParams :=
  let key := fst entry in
  match snd entry with
  | JUndefined | JNull => Some sp
  | value =>
      if includes nonFilterParams key then append_value sp key value
      else
        match value with
        | JArray vs =>
            forEach (fun sp v =>
                       append_value sp (js "filter[" ++ key ++ js "][]") v)
                    vs (Some sp)
        | _ => append_value sp (js "filter[" ++ key ++ js "]") value
        end
  end.

Definition invalid_url : jsstring := js "Invalid URL".

Section Program.

(** The greatest number of arguments a call can take. *)
Variable max_arguments : nat.

(** The body of the [forEach] callback of [generateExplorerDigest]: the
    new contents of [parts], or the [RangeError] of a spread that is too
    long. *)
Definition push_key (filters : object) (pushed : list jsvalue)
    (key : jsstring) : result (list jsvalue) :=
  match Get filters key with
  | JArray value =>
      if (max_arguments <? List.length value)%nat then Throw range_error
      else Return ((pushed ++ [JString key]) ++ value)
  | value => Return ((pushed ++ [JString key]) ++ [value])
  end.

(** The [forEach] over the sorted keys: it ends at the first error. *)
Fixpoint push_keys (filters : object) (keys : list jsstring)
    (pushed : list jsvalue) : result (list jsvalue) :=
  match keys with
  | [] => Return pushed
  | key :: rest =>
      match push_key filters pushed key with
      | Return pushed' => push_keys filters rest pushed'
      | Throw message => Throw message
      end
  end.

Definition generateExplorerDigest (filters : object)
    (secret : option jsstring) : result jsstring :=
  match secret with
  | None => Throw secret_error
  | Some s =>
      if secret_rejected secret then Throw secret_error
      else
        match push_keys filters (filterKeys filters) [] with
        | Throw message => Throw message
        | Return parts =>
            match Array_join parts (js "|") with
            | None => Throw type_error
            | Some filterString =>
                Return (hex (HMAC.hmac_sha1 (utf8 s) (utf8 filterString)))
            end
        end
  end.

(** A parsed URL, and [new URL(input, base)]; [None] stands for its
    [TypeError]. *)
Variable URL : Type.
Variable new_URL : jsstring -> jsstring -> option URL.

(** The parsed bodies of responses. *)
Variable J : Type.

(** The parts of a response the code reads: [text] and [json] are the
    settlements of [response.text()] and [response.json()]. *)
Record response : Type := mkResponse {
  ok : bool;
  status : Z;
  text : outcome jsstring;
  json : outcome J
}.

(** What [fetch] is called on: the URL that was parsed, with the
    parameters appended to its query since, in order. *)
Definition request : Type := (URL * URLSearchParams)%type.

(** The network: how the promise of [fetch] settles. *)
Variable fetch : request -> outcome response.

(** [makeDetailsApiRequest]; the result is what was written with
    [console.error] and how the promise settles. *)
Definition makeDetailsApiRequest (endpoint : jsstring) (params : object)
    (apiKey : option jsstring) (baseUrl : jsstring)
    : list jsstring * outcome J :=
  if negb (truthy_string apiKey) then ([], Rejected details_key_error)
  else
    match new_URL endpoint baseUrl with
    | None => ([], Rejected invalid_url)
    | Some url =>
        let sp := append [] (js "key") (string_or_undefined apiKey) in
        match forEach append_param (Object_entries params) (Some sp) with
        | None => ([], Rejected (js type_error))
        | Some sp =>
            match fetch (url, sp) with
            | Rejected message => ([], Rejected message)
            | Resolved response =>
                if negb (ok response) then
                  match text response with
                  | Rejected message => ([], Rejected message)
                  | Resolved errorText =>
                      ([js "Details API error ("
                          ++ Number_toString (number_of_Z (status response))
                          ++ js "): " ++ errorText],
                       Rejected (request_failed (status response)))
                  end
                else ([], json response)
            end
        end
    end.

(** [makeExplorerApiRequest] *)
Definition makeExplorerApiRequest (endpoint : jsstring) (filters : object)
    (apiKey apiSecret : option jsstring) (baseUrl : jsstring)
    : list jsstring * outcome J :=
  if negb (truthy_string apiKey) then ([], Rejected explorer_key_error)
  else
    match new_URL endpoint baseUrl with
    | None => ([], Rejected invalid_url)
    | Some url =>
        let sp := append [] (js "key") (string_or_undefined apiKey) in
        match forEach append_filter (Object_entries filters) (Some sp) with
        | None => ([], Rejected (js type_error))
        | Some sp =>
            match generateExplorerDigest filters apiSecret with
            | Throw message => ([], Rejected (js message))
            | Return digest =>
                let sp := append sp (js "digest") digest in
                match fetch (url, sp) with
                | Rejected message => ([], Rejected message)
                | Resolved response =>
                    if negb (ok response) then
                      match text response with
                      | Rejected message => ([], Rejected message)
                      | Resolved errorText =>
                          ([js "Explorer API error ("
                              ++ Number_toString
                                   (number_of_Z (status response))
                              ++ js "): " ++ errorText],
                           Rejected (request_failed (status response)))
                      end
                    else ([], json response)
                end
            end
        end
    end.

(** The handler of an Explorer tool, given its endpoint and statements. *)
Definition explore_handler (cfg : config) (stringify : J -> jsstring)
    (tool : jsstring * list (jsstring * jsstring)) (args : object)
    : list jsstring * outcome jsstring :=
  let endpoint := fst tool in
  let filters := build_filters (snd tool) args in
  content_text stringify
    (makeExplorerApiRequest endpoint filters (explorerApiKey cfg)
       (explorerApiSecret cfg) (explorerApiBaseUrl cfg)).

(** The handler of [get_citation_counts], for a string identifier and an
    identifier type that may be left out. *)
Definition get_citation_counts (cfg : config) (lib : extractors)
    (stringify : J -> jsstring) (identifier : jsstring)
    (identifier_type : option jsstring) : list jsstring * outcome jsstring :=
  let identifier_type :=
    match identifier_type with Some t => t | None => js "doi" end in
  match validateIdentifier lib identifier identifier_type with
  | Rejected m => ([], Rejected m)
  | Resolved _ =>
      match encodeURIComponent identifier with
      | Rejected m => ([], Rejected m)
      | Resolved encoded =>
          let endpoint := js "/v1/" ++ identifier_type ++ js "/" ++ encoded in
          content_text stringify
            (makeDetailsApiRequest endpoint [] (detailsApiKey cfg)
               (detailsApiBaseUrl cfg))
      end
  end.

(** What the request functions do once [fetch] has settled; [api] is the
    name written in the log line. *)
Definition settle (api : jsstring) (r : outcome response)
    : list jsstring * outcome J :=
  match r with
  | Rejected message => ([], Rejected message)
  | Resolved response =>
      if ok response then ([], json response)
      else
        match text response with
        | Rejected message => ([], Rejected message)
        | Resolved errorText =>
            ([api ++ js " API error ("
                ++ Number_toString (number_of_Z (status response))
                ++ js "): " ++ errorText],
             Rejected (request_failed (status response)))
        end
  end.

End Program.

Arguments mkResponse {J} ok status text json.
Arguments ok {J} r.
Arguments status {J} r.
Arguments text {J} r.
Arguments json {J} r.
Arguments makeDetailsApiRequest {URL} new_URL {J} fetch endpoint params
  apiKey baseUrl.
Arguments makeExplorerApiRequest max_arguments {URL} new_URL {J} fetch
  endpoint filters apiKey apiSecret baseUrl.
Arguments explore_handler max_arguments {URL} new_URL {J} fetch cfg stringify
  tool args.
Arguments get_citation_counts {URL} new_URL {J} fetch cfg lib stringify
  identifier identifier_type.
Arguments settle {J} api r.

(** The strings of a list of values, if every one can be converted. *)
Fixpoint strings (vs : list jsvalue) : option (list jsstring) :=
  match vs with
  | [] => Some []
  | v :: rest =>
      match ToString v, strings rest with
      | Some s, Some l => Some (s :: l)
      | _, _ => None
      end
  end.

(** The query parameters one filter entry stands for. *)
Definition entry_params (key : jsstring) (v : jsvalue)
    : option URLSearchParams :=
  match v with
  | JUndefined | JNull => Some []
  | _ =>
      if includes nonFilterParams key then
        option_map (fun s => [(toUSVString key, toUSVString s)]) (ToString v)
      else
        match v with
        | JArray vs =>
            option_map
              (map (fun s => (toUSVString (js "filter[" ++ key ++ js "][]"),
                              toUSVString s)))
              (strings vs)
        | _ =>
            option_map
              (fun s => [(toUSVString (js "filter[" ++ key ++ js "]"),
                          toUSVString s)])
              (ToString v)
        end
  end.

(** The filter part of the query, if every value in it can be converted. *)
Fixpoint entries_params (entries : list (jsstring * jsvalue))
    : option URLSearchParams :=
  match entries with
  | [] => Some []
  | (key, v) :: rest =>
      match entry_params key v, entries_params rest with
      | Some l, Some r => Some (l ++ r)
      | _, _ => None
      end
  end.

Definition wire_params (filters : object) : option URLSearchParams :=
  entries_params (Object_entries filters).

(** The parameter a Details entry stands for. *)
Definition detail_param (key : jsstring) (v : jsvalue)
    : option URLSearchParams :=
  match v with
  | JUndefined | JNull => Some []
  | _ => option_map (fun s => [(toUSVString key, toUSVString s)]) (ToString v)
  end.

Fixpoint details_entries (entries : list (jsstring * jsvalue))
    : option URLSearchParams :=
  match entries with
  | [] => Some []
  | (key, v) :: rest =>
      match detail_param key v, details_entries rest with
      | Some l, Some r => Some (l ++ r)
      | _, _ => None
      end
  end.

Definition details_params (params : object) : option URLSearchParams :=
  details_entries (Object_entries params).

(** The entries that are neither [undefined] nor [null]. *)
Definition is_nullish (v : jsvalue) : bool :=
  match v with
  | JUndefined | JNull => true
  | _ => false
  end.

Definition present_entries (params : object) : list (jsstring * jsvalue) :=
  filter (fun entry => negb (is_nullish (snd entry))) (Object_entries params).

(** The lists among the signed values fit an argument list. *)
Definition lists_fit (max_arguments : nat) (filters : object) : Prop :=
  forall key elements,
    In key (filterKeys filters) -> Get filters key = JArray elements ->
    (List.length elements <= max_arguments)%nat.

(** What [parts] holds when no spread fails. *)
Definition entry_parts (filters : object) (key : jsstring) : list jsvalue :=
  JString key
  :: match Get filters key with
     | JArray value => value
     | value => [value]
     end.

Definition parts (filters : object) : list jsvalue :=
  flat_map (entry_parts filters) (filterKeys filters).

(** Every element of [parts] has a string. *)
Definition parts_convert (filters : object) : Prop :=
  Forall (fun e => element_string e <> None) (parts filters).

(** The same, as a test. *)
Definition lists_fitb (max_arguments : nat) (filters : object) : bool :=
  forallb (fun key => match Get filters key with
                      | JArray elements =>
                          (List.length elements <=? max_arguments)%nat
                      | _ => true
                      end)
          (filterKeys filters).

(** Stand-ins to evaluate requests: a parser that keeps the input when
    the base begins with [https://], and a network that answers every
    request with status [st] and, as parsed body, the parameters that were
    appended. *)
Definition parse_https (input base : jsstring) : option jsstring :=
  if String_eqb (firstn 8 base) (js "https://") then Some (base ++ input)
  else None.

Definition echo (st : Z) (req : jsstring * URLSearchParams)
    : outcome (@response URLSearchParams) :=
  Resolved (mkResponse ((200 <=? st)%Z && (st <=? 299)%Z) st
              (Resolved (js "body")) (Resolved (snd req))).

End Full.

(* ------------------------------------------------------------------ *)
(** ** Strings: equality and order *)

Lemma String_eqb_eq (s t : jsstring) : String_eqb s t = true <-> s = t.
Proof.
  revert t; induction s as [|c s IH]; intros [|d t]; simpl;
    try (split; [discriminate | congruence]); try tauto.
  rewrite andb_true_iff, N.eqb_eq, IH. split.
  - intros [-> ->]; reflexivity.
  - intros H; injection H; auto.
Qed.

Lemma String_eqb_refl (s : jsstring) : String_eqb s s = true.
Proof. apply String_eqb_eq; reflexivity. Qed.

Lemma String_eqb_neq (s t : jsstring) : String_eqb s t = false <-> s <> t.
Proof.
  rewrite <- String_eqb_eq. destruct (String_eqb s t); split; congruence.
Qed.

Lemma String_ltb_lex (s t : jsstring) : String_ltb s t = true <-> lex_lt s t.
Proof.
  revert t; induction s as [|c s IH]; intros [|d t]; simpl.
  - split; [discriminate | inversion 1].
  - split; [constructor | reflexivity].
  - split; [discriminate | inversion 1].
  - destruct (N.ltb_spec c d) as [Hcd|Hcd].
    + split; [intros _; constructor; assumption | reflexivity].
    + destruct (N.ltb_spec d c) as [Hdc|Hdc].
      * split; [discriminate |].
        inversion 1; subst; lia.
      * assert (c = d) by lia; subst d. rewrite IH. split.
        -- apply lex_tail.
        -- inversion 1; subst; [lia | assumption].
Qed.

Lemma lex_lt_irrefl (s : list N) : ~ lex_lt s s.
Proof.
  induction s as [|c s IH]; inversion 1; subst; [lia | auto].
Qed.

Lemma lex_lt_trans (s t u : list N) : lex_lt s t -> lex_lt t u -> lex_lt s u.
Proof.
  intros H; revert u; induction H; intros u Hu; inversion Hu; subst.
  - constructor.
  - constructor.
  - apply lex_head; lia.
  - apply lex_head; assumption.
  - apply lex_head; assumption.
  - apply lex_tail; auto.
Qed.

Lemma lex_lt_total (s t : list N) : lex_lt s t \/ s = t \/ lex_lt t s.
Proof.
  revert t; induction s as [|c s IH]; intros [|d t].
  - auto.
  - left; constructor.
  - right; right; constructor.
  - destruct (N.lt_total c d) as [H|[H|H]].
    + left; constructor; assumption.
    + subst d. destruct (IH t) as [H|[H|H]].
      * left; apply lex_tail; assumption.
      * subst; auto.
      * right; right; apply lex_tail; assumption.
    + right; right; constructor; assumption.
Qed.

(** [String_ltb t s = false] is the order "s is not after t". *)
Lemma not_ltb_lex_le (s t : jsstring) : String_ltb t s = false <-> lex_le s t.
Proof.
  unfold lex_le. split.
  - intros H. destruct (lex_lt_total s t) as [H1|[H1|H1]]; auto.
    apply String_ltb_lex in H1; congruence.
  - intros [H| ->].
    + destruct (String_ltb t s) eqn:E; [|reflexivity].
      apply String_ltb_lex in E.
      exfalso; exact (lex_lt_irrefl _ (lex_lt_trans _ _ _ H E)).
    + destruct (String_ltb t t) eqn:E; [|reflexivity].
      apply String_ltb_lex in E. exfalso; exact (lex_lt_irrefl _ E).
Qed.

Lemma lex_le_trans (s t u : list N) : lex_le s t -> lex_le t u -> lex_le s u.
Proof.
  intros [H1| ->] [H2| ->]; unfold lex_le; auto.
  left; exact (lex_lt_trans _ _ _ H1 H2).
Qed.

Lemma lex_le_antisym (s t : list N) : lex_le s t -> lex_le t s -> s = t.
Proof.
  intros [H1| ->] [H2|H2]; auto.
  exfalso; exact (lex_lt_irrefl _ (lex_lt_trans _ _ _ H1 H2)).
Qed.

(* ------------------------------------------------------------------ *)
(** ** The default sort *)

Lemma SortCompare_Gt (x y : jsstring) :
  SortCompare x y = Gt -> lex_lt y x.
Proof.
  unfold SortCompare. destruct (String_ltb x y); [discriminate|].
  destruct (String_ltb y x) eqn:E; [|discriminate].
  intros _. apply String_ltb_lex; assumption.
Qed.

Lemma SortCompare_not_Gt (x y : jsstring) :
  SortCompare x y <> Gt -> lex_le x y.
Proof.
  unfold SortCompare. destruct (String_ltb x y) eqn:E1.
  - intros _. left. apply String_ltb_lex; assumption.
  - destruct (String_ltb y x) eqn:E2; [congruence|].
    intros _. apply not_ltb_lex_le; assumption.
Qed.

Lemma sort_insert_perm (x : jsstring) (l : list jsstring) :
  Permutation (sort_insert x l) (x :: l).
Proof.
  induction l as [|y l IH]; simpl; [reflexivity|].
  destruct (SortCompare x y); try reflexivity.
  rewrite IH. apply perm_swap.
Qed.

Lemma Array_sort_perm (l : list jsstring) : Permutation (Array_sort l) l.
Proof.
  induction l as [|x l IH]; simpl; [reflexivity|].
  rewrite sort_insert_perm. constructor; assumption.
Qed.

Lemma sort_insert_sorted (x : jsstring) (l : list jsstring) :
  StronglySorted lex_le l -> StronglySorted lex_le (sort_insert x l).
Proof.
  induction 1 as [|y l Hs IH Hall]; simpl.
  - constructor; constructor.
  - destruct (SortCompare x y) eqn:E.
    + assert (Hxy : lex_le x y) by (apply SortCompare_not_Gt; congruence).
      constructor; [constructor; assumption|].
      constructor; [assumption|].
      eapply Forall_impl; [|exact Hall].
      intros z Hz; exact (lex_le_trans _ _ _ Hxy Hz).
    + assert (Hxy : lex_le x y) by (apply SortCompare_not_Gt; congruence).
      constructor; [constructor; assumption|].
      constructor; [assumption|].
      eapply Forall_impl; [|exact Hall].
      intros z Hz; exact (lex_le_trans _ _ _ Hxy Hz).
    + constructor; [assumption|].
      apply SortCompare_Gt in E.
      eapply Permutation_Forall; [symmetry; apply sort_insert_perm|].
      constructor; [left; assumption | assumption].
Qed.

Lemma Array_sort_sorted (l : list jsstring) :
  StronglySorted lex_le (Array_sort l).
Proof.
  induction l as [|x l IH]; simpl.
  - constructor.
  - apply sort_insert_sorted; assumption.
Qed.

(** A list has one sorted arrangement only. *)
Lemma sorted_perm_unique (l1 l2 : list jsstring) :
  StronglySorted lex_le l1 -> StronglySorted lex_le l2 ->
  Permutation l1 l2 -> l1 = l2.
Proof.
  intros H1; revert l2; induction H1 as [|a l1 Hs1 IH Hall1];
    intros l2 H2 HP.
  - apply Permutation_nil in HP; congruence.
  - destruct H2 as [|b l2 Hs2 Hall2].
    + symmetry in HP; apply Permutation_nil in HP; discriminate.
    + assert (Hab : lex_le a b).
      { assert (Hin : In b (a :: l1))
          by (eapply Permutation_in; [symmetry; exact HP | left; reflexivity]).
        destruct Hin as [->|Hin]; [right; reflexivity|].
        rewrite Forall_forall in Hall1; auto. }
      assert (Hba : lex_le b a).
      { assert (Hin : In a (b :: l2))
          by (eapply Permutation_in; [exact HP | left; reflexivity]).
        destruct Hin as [->|Hin]; [right; reflexivity|].
        rewrite Forall_forall in Hall2; auto. }
      assert (a = b) by (apply lex_le_antisym; assumption). subst b.
      f_equal. apply IH; [assumption|].
      eapply Permutation_cons_inv; exact HP.
Qed.

Lemma Array_sort_perm_eq (l1 l2 : list jsstring) :
  Permutation l1 l2 -> Array_sort l1 = Array_sort l2.
Proof.
  intros HP. apply sorted_perm_unique; try apply Array_sort_sorted.
  rewrite !Array_sort_perm; assumption.
Qed.

Lemma Array_sort_unique (l ks : list jsstring) :
  Permutation ks l -> StronglySorted lex_le ks -> Array_sort l = ks.
Proof.
  intros HP Hs. apply sorted_perm_unique;
    [apply Array_sort_sorted | assumption |].
  rewrite Array_sort_perm. symmetry; assumption.
Qed.

(* ------------------------------------------------------------------ *)
(** ** Own keys, [Object.keys] and property lookup *)

Lemma filter_perm {A} (p : A -> bool) (l l' : list A) :
  Permutation l l' -> Permutation (filter p l) (filter p l').
Proof.
  induction 1 as [| x l l' _ IH | x y l | l l' l'' _ IH1 _ IH2]; simpl.
  - constructor.
  - destruct (p x); [constructor|]; assumption.
  - destruct (p x), (p y); try reflexivity. apply perm_swap.
  - etransitivity; eassumption.
Qed.

Lemma filter_partition_perm {A} (p : A -> bool) (l : list A) :
  Permutation (filter p l ++ filter (fun x => negb (p x)) l) l.
Proof.
  induction l as [|x l IH]; simpl; [constructor|].
  destruct (p x); simpl.
  - constructor; assumption.
  - symmetry. apply Permutation_cons_app. symmetry; assumption.
Qed.

Lemma insert_index_perm (k : jsstring) (l : list jsstring) :
  Permutation (insert_index k l) (k :: l).
Proof.
  induction l as [|y l IH]; simpl; [reflexivity|].
  destruct (index_of y <? index_of k); [|reflexivity].
  rewrite IH. apply perm_swap.
Qed.

Lemma Object_keys_perm (o : object) : Permutation (Object_keys o) (own_keys o).
Proof.
  unfold Object_keys.
  rewrite <- (filter_partition_perm is_array_index (own_keys o)) at 3.
  apply Permutation_app_tail.
  induction (filter is_array_index (own_keys o)) as [|k l IH]; simpl.
  - constructor.
  - rewrite insert_index_perm. constructor; assumption.
Qed.

Lemma filterKeys_perm (filters : object) :
  Permutation (filterKeys filters) (remaining_keys filters).
Proof.
  unfold filterKeys, remaining_keys. rewrite Array_sort_perm.
  apply filter_perm, Object_keys_perm.
Qed.

Lemma filterKeys_sorted (filters : object) :
  StronglySorted lex_le (filterKeys filters).
Proof. apply Array_sort_sorted. Qed.

Lemma includes_excluded (k : jsstring) :
  includes excludeFromDigest k = true <-> ExcludedKeys k.
Proof.
  unfold includes, excludeFromDigest, ExcludedKeys, existsb.
  rewrite !orb_true_iff, !String_eqb_eq. intuition discriminate.
Qed.

Lemma remaining_keys_In (filters : object) (k : jsstring) :
  In k (remaining_keys filters) <-> In k (own_keys filters) /\ ~ ExcludedKeys k.
Proof.
  unfold remaining_keys. rewrite filter_In, negb_true_iff.
  rewrite <- includes_excluded.
  destruct (includes excludeFromDigest k); intuition congruence.
Qed.

Lemma filterKeys_In (filters : object) (k : jsstring) :
  In k (filterKeys filters) <-> In k (own_keys filters) /\ ~ ExcludedKeys k.
Proof.
  rewrite <- remaining_keys_In. split; apply Permutation_in;
    [|symmetry]; apply filterKeys_perm.
Qed.

Lemma Get_In (o : object) (k : jsstring) :
  In k (own_keys o) <-> Get o k <> None.
Proof.
  induction o as [|[k' v] o IH]; simpl.
  - split; [tauto | congruence].
  - destruct (String_eqb k' k) eqn:E.
    + apply String_eqb_eq in E. split; [discriminate | auto].
    + apply String_eqb_neq in E. rewrite <- IH. split.
      * intros [H|H]; [congruence | assumption].
      * auto.
Qed.

Lemma Get_In_entry (o : object) (k : jsstring) (v : value) :
  well_formed o -> In (k, v) o -> Get o k = Some v.
Proof.
  unfold well_formed, own_keys.
  induction o as [|[k' v'] o IH]; simpl; [tauto|].
  intros Hnd [Heq|Hin].
  - injection Heq as -> ->. rewrite String_eqb_refl; reflexivity.
  - inversion Hnd as [|? ? Hnotin Hnd']; subst.
    destruct (String_eqb k' k) eqn:E.
    + apply String_eqb_eq in E; subst k'.
      exfalso; apply Hnotin. apply (in_map fst) in Hin; exact Hin.
    + auto.
Qed.

Lemma Get_Some_In (o : object) (k : jsstring) (v : value) :
  Get o k = Some v -> In (k, v) o.
Proof.
  induction o as [|[k' v'] o IH]; simpl; [discriminate|].
  destruct (String_eqb k' k) eqn:E.
  - apply String_eqb_eq in E; subst k'. intros H; injection H as ->; auto.
  - auto.
Qed.

(** Reordering the properties of an object does not change what a name
    maps to. *)
Lemma Get_perm (o1 o2 : object) (k : jsstring) :
  well_formed o1 -> Permutation o1 o2 -> Get o1 k = Get o2 k.
Proof.
  intros Hwf HP.
  assert (Hwf2 : well_formed o2).
  { unfold well_formed, own_keys in *.
    eapply Permutation_NoDup; [apply Permutation_map; exact HP | assumption]. }
  destruct (Get o1 k) as [v|] eqn:E1.
  - symmetry. apply Get_In_entry; [assumption|].
    eapply Permutation_in; [exact HP|]. apply Get_Some_In; assumption.
  - destruct (Get o2 k) as [v|] eqn:E2; [|reflexivity].
    exfalso. apply Get_Some_In in E2.
    assert (Hin : In (k, v) o1)
      by (eapply Permutation_in; [symmetry; exact HP | assumption]).
    rewrite (Get_In_entry _ _ _ Hwf Hin) in E1; discriminate.
Qed.

(* ------------------------------------------------------------------ *)
(** ** The [parts] array and its join *)

Lemma push_key_entry (filters : object) (pushed : list element)
    (key : jsstring) :
  push_key filters pushed key = pushed ++ entry_parts filters key.
Proof.
  unfold push_key, entry_parts.
  destruct (Get filters key) as [[x|xs]|]; rewrite <- app_assoc; reflexivity.
Qed.

Lemma fold_push_key (filters : object) (ks : list jsstring)
    (acc : list element) :
  fold_left (push_key filters) ks acc
  = acc ++ flat_map (entry_parts filters) ks.
Proof.
  revert acc; induction ks as [|k ks IH]; intros acc; simpl.
  - rewrite app_nil_r; reflexivity.
  - rewrite IH, push_key_entry, <- app_assoc; reflexivity.
Qed.

Lemma parts_flat_map (filters : object) :
  parts filters = flat_map (entry_parts filters) (filterKeys filters).
Proof. unfold parts. rewrite fold_push_key; reflexivity. Qed.

Lemma entry_parts_tokens (filters : object) (k : jsstring) :
  map element_string (entry_parts filters k) = key_tokens filters k.
Proof.
  unfold entry_parts, key_tokens.
  destruct (Get filters k) as [[x|xs]|]; simpl; try reflexivity.
  rewrite map_map; reflexivity.
Qed.

Lemma parts_tokens (filters : object) (ks : list jsstring) :
  map element_string (flat_map (entry_parts filters) ks)
  = flat_map (key_tokens filters) ks.
Proof.
  induction ks as [|k ks IH]; [reflexivity|].
  cbn [flat_map]. rewrite map_app, IH, entry_parts_tokens; reflexivity.
Qed.

Lemma join_loop_S (sep : jsstring) (k : nat) (R : jsstring)
    (rest : list element) :
  join_loop sep (S k) R rest
  = R ++ List.concat (map (fun e => sep ++ element_string e) rest).
Proof.
  revert k R; induction rest as [|e rest IH]; intros k R; simpl.
  - rewrite app_nil_r; reflexivity.
  - rewrite IH, <- !app_assoc; reflexivity.
Qed.

Lemma intercalate_cons (sep t : jsstring) (ts : list jsstring) :
  intercalate sep (t :: ts) = t ++ List.concat (map (app sep) ts).
Proof.
  revert t; induction ts as [|u ts IH]; intros t.
  - simpl. rewrite app_nil_r; reflexivity.
  - change (intercalate sep (t :: u :: ts))
      with (t ++ sep ++ intercalate sep (u :: ts)).
    rewrite IH. simpl. rewrite <- app_assoc; reflexivity.
Qed.

Lemma Array_join_intercalate (a : list element) (sep : jsstring) :
  Array_join a sep = intercalate sep (map element_string a).
Proof.
  destruct a as [|e rest]; [reflexivity|].
  unfold Array_join. cbn [join_loop Nat.ltb Nat.leb app map].
  rewrite join_loop_S, intercalate_cons, map_map; reflexivity.
Qed.

Lemma filterString_canonical (filters : object) :
  filterString filters = canonical_string filters (filterKeys filters).
Proof.
  unfold filterString, canonical_string.
  rewrite Array_join_intercalate, parts_flat_map, parts_tokens.
  reflexivity.
Qed.

(** The separators are exactly the ones between neighbouring tokens. *)
Lemma intercalate_length (sep : jsstring) (ts : list jsstring) :
  List.length (intercalate sep ts)
  = (list_sum (map (@List.length code_unit) ts)
     + List.length sep * (List.length ts - 1))%nat.
Proof.
  destruct ts as [|t ts]; [simpl; lia|].
  rewrite intercalate_cons. cbn [map list_sum List.length].
  rewrite length_app. replace (S (List.length ts) - 1)%nat
    with (List.length ts) by lia.
  assert (E : List.length (List.concat (map (app sep) ts))
              = (list_sum (map (@List.length code_unit) ts)
                 + List.length sep * List.length ts)%nat).
  { induction ts as [|u ts IH]; simpl; [lia|].
    rewrite !length_app, IH, Nat.mul_succ_r. lia. }
  rewrite E. cbn [list_sum fold_right]. apply Nat.add_assoc.
Qed.

Lemma intercalate_In (sep t : jsstring) (ts : list jsstring) :
  In t ts -> exists pre post, intercalate sep ts = pre ++ t ++ post.
Proof.
  induction ts as [|u ts IH]; [contradiction|].
  intros [->|Hin].
  - exists [], (List.concat (map (app sep) ts)).
    rewrite intercalate_cons; reflexivity.
  - destruct (IH Hin) as (pre & post & E).
    destruct ts as [|v ts]; [contradiction|].
    exists (u ++ sep ++ pre), post.
    change (intercalate sep (u :: v :: ts))
      with (u ++ sep ++ intercalate sep (v :: ts)).
    rewrite E, <- !app_assoc; reflexivity.
Qed.

(** The signed string depends on the filters through the sorted keys and
    through what each of them appends to [parts]. *)
Lemma filterString_ext (f1 f2 : object) :
  filterKeys f1 = filterKeys f2 ->
  (forall k, In k (filterKeys f1) -> entry_parts f1 k = entry_parts f2 k) ->
  filterString f1 = filterString f2.
Proof.
  intros Hk He. unfold filterString.
  rewrite !parts_flat_map, <- Hk. f_equal.
  clear Hk. revert He. generalize (filterKeys f1) as ks.
  induction ks as [|k ks IH]; intros He; [reflexivity|].
  cbn [flat_map]. rewrite He by (left; reflexivity). f_equal.
  apply IH. intros k' Hk'; apply He; right; assumption.
Qed.

Lemma entry_parts_Get (f1 f2 : object) (k : jsstring) :
  Get f1 k = Get f2 k -> entry_parts f1 k = entry_parts f2 k.
Proof. unfold entry_parts; intros ->; reflexivity. Qed.

(** With a usable secret the function returns the hex form of the HMAC of
    the signed string. *)
Lemma digest_valid (filters : object) (s : jsstring) :
  (16 <= String_length s)%nat ->
  generateExplorerDigest filters (Some s)
  = Return (hex (HMAC.hmac_sha1 (utf8 s) (utf8 (filterString filters)))).
Proof.
  intros H. unfold generateExplorerDigest, secret_rejected.
  destruct s as [|c s']; [simpl in H; lia|].
  replace (String_length (c :: s') <? 16)%nat with false; [reflexivity|].
  symmetry; apply Nat.ltb_ge; assumption.
Qed.

(* ------------------------------------------------------------------ *)
(** ** Size and alphabet of the digest *)

Lemma land_255_lt (x : N) : N.land x 0xFF < 256.
Proof.
  change 0xFF with (N.ones 8). rewrite N.land_ones.
  apply N.mod_lt. discriminate.
Qed.

Lemma bytes_of_word_range (w : N) :
  Forall (fun b => b < 256) (SHA1.bytes_of_word w).
Proof. unfold SHA1.bytes_of_word. repeat constructor; apply land_255_lt. Qed.

Lemma hash_length (msg : list byte) : List.length (SHA1.hash msg) = 20%nat.
Proof.
  unfold SHA1.hash. cbv zeta.
  generalize (SHA1.process (List.length (SHA1.pad msg) / 64) (SHA1.pad msg)
                SHA1.init) as s.
  intros s. rewrite !length_app. reflexivity.
Qed.

Lemma hash_range (msg : list byte) :
  Forall (fun b => b < 256) (SHA1.hash msg).
Proof.
  unfold SHA1.hash. cbv zeta.
  generalize (SHA1.process (List.length (SHA1.pad msg) / 64) (SHA1.pad msg)
                SHA1.init) as s.
  intros s. repeat (apply Forall_app; split); apply bytes_of_word_range.
Qed.

Lemma hmac_length (key msg : list byte) :
  List.length (HMAC.hmac_sha1 key msg) = 20%nat.
Proof. unfold HMAC.hmac_sha1. apply hash_length. Qed.

Lemma hmac_range (key msg : list byte) :
  Forall (fun b => b < 256) (HMAC.hmac_sha1 key msg).
Proof. unfold HMAC.hmac_sha1. apply hash_range. Qed.

Lemma hex_length (bs : list byte) :
  List.length (hex bs) = (2 * List.length bs)%nat.
Proof.
  unfold hex. induction bs as [|b bs IH]; [reflexivity|].
  cbn [flat_map List.length app]. rewrite IH. lia.
Qed.

Lemma hex_digit_lower (d : N) : d < 16 -> is_lower_hex (hex_digit d) = true.
Proof.
  intros H. unfold hex_digit, is_lower_hex.
  destruct (N.ltb_spec d 10).
  - replace (48 <=? 48 + d) with true by (symmetry; apply N.leb_le; lia).
    replace (48 + d <=? 57) with true by (symmetry; apply N.leb_le; lia).
    reflexivity.
  - replace (97 <=? 87 + d) with true by (symmetry; apply N.leb_le; lia).
    replace (87 + d <=? 102) with true by (symmetry; apply N.leb_le; lia).
    apply orb_true_r.
Qed.

Lemma hex_lower (bs : list byte) :
  Forall (fun b => b < 256) bs ->
  Forall (fun c => is_lower_hex c = true) (hex bs).
Proof.
  unfold hex. induction 1 as [|b bs Hb _ IH]; [constructor|].
  cbn [flat_map app]. constructor; [|constructor; [|exact IH]].
  - apply hex_digit_lower. rewrite N.shiftr_div_pow2.
    apply N.Div0.div_lt_upper_bound; exact Hb.
  - apply hex_digit_lower. change 0xF with (N.ones 4).
    rewrite N.land_ones. apply N.mod_lt; discriminate.
Qed.

(* ------------------------------------------------------------------ *)
(** ** Known values *)

(** Published test vectors of SHA-1 and of HMAC-SHA1. *)
Example sha1_abc :
  hex (SHA1.hash (utf8 (js "abc")))
  = js "a9993e364706816aba3e25717850c26c9cd0d89d".
Proof. vm_compute. reflexivity. Qed.

Example sha1_empty :
  hex (SHA1.hash []) = js "da39a3ee5e6b4b0d3255bfef95601890afd80709".
Proof. vm_compute. reflexivity. Qed.

Example sha1_two_blocks :
  hex (SHA1.hash
         (utf8 (js "abcdbcdecdefdefgefghfghighijhijkijkljklmklmnlmnomnopnopq")))
  = js "84983e441c3bd26ebaae4aa1f95129e5e54670f1".
Proof. vm_compute. reflexivity. Qed.

Example hmac_sha1_fox :
  hex (HMAC.hmac_sha1 (utf8 (js "key"))
         (utf8 (js "The quick brown fox jumps over the lazy dog")))
  = js "de7c9b85b8b78aa6bc8a7a36f70a90701c9db4d9".
Proof. vm_compute. reflexivity. Qed.

Example hmac_sha1_empty :
  hex (HMAC.hmac_sha1 [] []) = js "fbdb1d1b18aa6c08324b7d64b71fb76370690e1d".
Proof. vm_compute. reflexivity. Qed.

(** UTF-8 of one, two, three and four byte characters, and of an
    unpaired surrogate. *)
Example utf8_widths :
  utf8 [0x41; 0xE9; 0x20AC; 0xD83D; 0xDE00; 0xD83D]
  = [0x41; 0xC3; 0xA9; 0xE2; 0x82; 0xAC; 0xF0; 0x9F; 0x98; 0x80;
     0xEF; 0xBF; 0xBD].
Proof. reflexivity. Qed.

(** [Object.keys] lists array indices first, in numeric order. *)
Example Object_keys_order :
  Object_keys
    [(js "b", str "x"); (js "10", str "x"); (js "9", str "x");
     (js "01", str "x"); (js "a", str "x")]
  = [js "9"; js "10"; js "b"; js "01"; js "a"].
Proof. reflexivity. Qed.

(** The cases of the test suite of the repository. *)
Example test_excludes_order :
  generateExplorerDigest
    [(js "q", str "test"); (js "order", str "score_desc")] validSecret
  = generateExplorerDigest
      [(js "q", str "test"); (js "order", str "date_desc")] validSecret.
Proof. vm_compute. reflexivity. Qed.

Example test_excludes_page_number :
  generateExplorerDigest
    [(js "q", str "test"); (js "page[number]", num 1)] validSecret
  = generateExplorerDigest
      [(js "q", str "test"); (js "page[number]", num 2)] validSecret.
Proof. vm_compute. reflexivity. Qed.

Example test_excludes_page_size :
  generateExplorerDigest
    [(js "q", str "test"); (js "page[size]", num 25)] validSecret
  = generateExplorerDigest
      [(js "q", str "test"); (js "page[size]", num 100)] validSecret.
Proof. vm_compute. reflexivity. Qed.

Example test_sorts_keys :
  generateExplorerDigest
    [(js "q", str "test"); (js "scope", str "all"); (js "timeframe", str "1w")]
    validSecret
  = generateExplorerDigest
      [(js "timeframe", str "1w"); (js "q", str "test"); (js "scope", str "all")]
      validSecret.
Proof. vm_compute. reflexivity. Qed.

Example test_short_secret :
  generateExplorerDigest [(js "q", str "test")] (Some (js "short"))
  = Throw secret_error.
Proof. reflexivity. Qed.

Example test_missing_secret :
  generateExplorerDigest [(js "q", str "test")] None = Throw secret_error
  /\ generateExplorerDigest [(js "q", str "test")] (Some (js ""))
     = Throw secret_error.
Proof. split; reflexivity. Qed.

Example test_q_only :
  generateExplorerDigest [(js "q", str "test")] validSecret
  = Return (js "29180baf0cc29b5da326df230c80064db2180a7c").
Proof. vm_compute. reflexivity. Qed.

(* ------------------------------------------------------------------ *)
(** ** Decimal digits of a number *)










(* ------------------------------------------------------------------ *)
(** ** Filter sets that sign alike *)

Lemma well_formed_Object_keys (o : object) :
  well_formed o -> NoDup (Object_keys o).
Proof.
  intros H. eapply Permutation_NoDup; [|exact H].
  symmetry; apply Object_keys_perm.
Qed.

(** Two filter sets with the same unreserved names sign the same keys in
    the same order. *)
Lemma filterKeys_agree (f1 f2 : object) :
  well_formed f1 -> well_formed f2 ->
  (forall k, ~ ExcludedKeys k -> (In k (own_keys f1) <-> In k (own_keys f2))) ->
  filterKeys f1 = filterKeys f2.
Proof.
  intros H1 H2 Hin. unfold filterKeys. apply Array_sort_perm_eq.
  apply NoDup_Permutation.
  - apply NoDup_filter, well_formed_Object_keys; assumption.
  - apply NoDup_filter, well_formed_Object_keys; assumption.
  - intros k. rewrite !filter_In, negb_true_iff.
    split; intros [Hk He]; (split; [|exact He]).
    + eapply Permutation_in; [symmetry; apply Object_keys_perm|].
      apply Hin.
      * rewrite <- includes_excluded; congruence.
      * eapply Permutation_in; [apply Object_keys_perm | exact Hk].
    + eapply Permutation_in; [symmetry; apply Object_keys_perm|].
      apply Hin.
      * rewrite <- includes_excluded; congruence.
      * eapply Permutation_in; [apply Object_keys_perm | exact Hk].
Qed.

Lemma filterString_agree (f1 f2 : object) :
  well_formed f1 -> well_formed f2 ->
  (forall k, ~ ExcludedKeys k -> Get f1 k = Get f2 k) ->
  filterString f1 = filterString f2.
Proof.
  intros H1 H2 Hget. apply filterString_ext.
  - apply filterKeys_agree; try assumption.
    intros k Hk. rewrite !Get_In, (Hget k Hk). reflexivity.
  - intros k Hk. apply entry_parts_Get, Hget.
    apply filterKeys_In in Hk. tauto.
Qed.

Lemma filterKeys_nil (filters : object) :
  (forall k, In k (own_keys filters) -> ExcludedKeys k) ->
  filterKeys filters = [].
Proof.
  intros H. destruct (filterKeys filters) as [|k ks] eqn:E; [reflexivity|].
  assert (Hin : In k (filterKeys filters)) by (rewrite E; left; reflexivity).
  apply filterKeys_In in Hin. destruct Hin as [Hin Hex].
  exfalso; apply Hex, H, Hin.
Qed.

Lemma Get_app (o1 o2 : object) (k : jsstring) :
  Get (o1 ++ o2) k
  = match Get o1 k with Some v => Some v | None => Get o2 k end.
Proof.
  induction o1 as [|[k' v'] o1 IH]; [reflexivity|].
  simpl. destruct (String_eqb k' k); [reflexivity | exact IH].
Qed.

Lemma valid_secret_returns (filters : object) (secret : option jsstring) :
  valid_secret secret ->
  exists s, secret = Some s /\
    generateExplorerDigest filters secret
    = Return (hex (HMAC.hmac_sha1 (utf8 s) (utf8 (filterString filters)))).
Proof.
  intros (s & -> & Hlen). exists s. split; [reflexivity|].
  apply digest_valid; assumption.
Qed.

Lemma same_string_same_digest (f1 f2 : object) (secret : option jsstring) :
  valid_secret secret -> filterString f1 = filterString f2 ->
  exists d, generateExplorerDigest f1 secret = Return d
            /\ generateExplorerDigest f2 secret = Return d.
Proof.
  intros Hs E.
  destruct (valid_secret_returns f1 secret Hs) as (s & -> & E1).
  exists (hex (HMAC.hmac_sha1 (utf8 s) (utf8 (filterString f1)))).
  split; [exact E1|].
  rewrite E. apply digest_valid.
  destruct Hs as (s' & Es & Hlen). injection Es as ->. exact Hlen.
Qed.

Lemma distinctb_NoDup (l : list jsstring) : distinctb l = true -> NoDup l.
Proof.
  induction l as [|k l IH]; simpl; [constructor|].
  rewrite andb_true_iff, negb_true_iff. intros [Hk Hl].
  constructor; [|auto].
  intros Hin. assert (existsb (String_eqb k) l = true); [|congruence].
  apply existsb_exists. exists k. split; [assumption | apply String_eqb_refl].
Qed.

Lemma well_formed_by_computation (o : object) :
  distinctb (own_keys o) = true -> well_formed o.
Proof. apply distinctb_NoDup. Qed.

Lemma valid_secret_by_computation (s : jsstring) :
  (16 <=? String_length s)%nat = true -> valid_secret (Some s).
Proof. intros H. exists s. split; [reflexivity | apply Nat.leb_le, H]. Qed.

(* ------------------------------------------------------------------ *)
(** ** Every value: conversion, spread and join *)

Lemma ToString_array (elements : list Full.jsvalue) :
  Full.ToString (Full.JArray elements) = Full.Array_join elements (js ",").
Proof. reflexivity. Qed.

Lemma join_loop_cons (sep : jsstring) (k : nat) (R : jsstring)
    (e : Full.jsvalue) (rest : list Full.jsvalue) :
  Full.join_loop sep k R (e :: rest)
  = match Full.element_string e with
    | Some next =>
        Full.join_loop sep (S k)
          ((if (0 <? k)%nat then R ++ sep else R) ++ next) rest
    | None => None
    end.
Proof. reflexivity. Qed.

Lemma embed_own_keys (f : object) : Full.own_keys (Full.embed f) = own_keys f.
Proof.
  unfold Full.own_keys, Full.embed, own_keys. rewrite map_map. reflexivity.
Qed.

Lemma embed_Object_keys (f : object) :
  Full.Object_keys (Full.embed f) = Object_keys f.
Proof. unfold Full.Object_keys, Object_keys. rewrite embed_own_keys. reflexivity. Qed.

Lemma embed_filterKeys (f : object) :
  Full.filterKeys (Full.embed f) = filterKeys f.
Proof. unfold Full.filterKeys, filterKeys. rewrite embed_Object_keys. reflexivity. Qed.

Lemma embed_Get (f : object) (k : jsstring) :
  Full.Get (Full.embed f) k
  = match Get f k with
    | Some v => Full.embed_value v
    | None => Full.JUndefined
    end.
Proof.
  induction f as [|[k' v] f IH]; [reflexivity|].
  cbn [Full.embed map Full.Get Get fst snd].
  destruct (String_eqb k' k); [reflexivity | exact IH].
Qed.

Lemma embed_element_string (e : element) :
  Full.element_string (Full.embed_element e) = Some (element_string e).
Proof. destruct e as [[s|x]|]; reflexivity. Qed.

Lemma embed_join_loop (sep : jsstring) (l : list element) (k : nat)
    (R : jsstring) :
  Full.join_loop sep k R (map Full.embed_element l) = Some (join_loop sep k R l).
Proof.
  revert k R; induction l as [|e l IH]; intros k R; [reflexivity|].
  cbn [map join_loop]. rewrite join_loop_cons, embed_element_string. apply IH.
Qed.

Lemma embed_value_ToString (v : value) :
  Full.ToString (Full.embed_value v) = Some (value_ToString v).
Proof.
  destruct v as [[s|x]|xs]; try reflexivity.
  cbn [Full.embed_value value_ToString]. rewrite ToString_array.
  unfold Full.Array_join, Array_join.
  replace (map Full.embed_scalar xs) with (map Full.embed_element (map Some xs))
    by (rewrite map_map; reflexivity).
  apply embed_join_loop.
Qed.

Lemma embed_scalar_ToString (x : scalar) :
  Full.ToString (Full.embed_scalar x) = Some (ToString x).
Proof. destruct x; reflexivity. Qed.

Lemma embed_entry_parts (f : object) (k : jsstring) :
  Full.entry_parts (Full.embed f) k = map Full.embed_element (entry_parts f k).
Proof.
  unfold Full.entry_parts, entry_parts. rewrite embed_Get.
  destruct (Get f k) as [[[s|x]|xs]|]; try reflexivity.
  cbn [Full.embed_value map Full.embed_element]. rewrite map_map. reflexivity.
Qed.

Lemma embed_parts (f : object) :
  Full.parts (Full.embed f) = map Full.embed_element (parts f).
Proof.
  unfold Full.parts. rewrite parts_flat_map, embed_filterKeys.
  induction (filterKeys f) as [|k ks IH]; [reflexivity|].
  cbn [flat_map]. rewrite map_app, IH, embed_entry_parts. reflexivity.
Qed.

(** The fold over the keys: it returns [parts] when every list fits, and
    throws a [RangeError] otherwise. *)
Lemma push_key_Return (max_arguments : nat) (filters : Full.object)
    (pushed : list Full.jsvalue) (key : jsstring) :
  (forall elements, Full.Get filters key = Full.JArray elements ->
                    (List.length elements <= max_arguments)%nat) ->
  Full.push_key max_arguments filters pushed key
  = Return (pushed ++ Full.entry_parts filters key).
Proof.
  intros H. unfold Full.push_key, Full.entry_parts.
  destruct (Full.Get filters key) eqn:E;
    try (rewrite <- app_assoc; reflexivity).
  replace (max_arguments <? List.length elements)%nat with false.
  - rewrite <- app_assoc. reflexivity.
  - symmetry. apply Nat.ltb_ge. apply H. reflexivity.
Qed.

Lemma push_key_Throw (max_arguments : nat) (filters : Full.object)
    (pushed : list Full.jsvalue) (key : jsstring) (elements : list Full.jsvalue) :
  Full.Get filters key = Full.JArray elements ->
  (max_arguments < List.length elements)%nat ->
  Full.push_key max_arguments filters pushed key = Throw Full.range_error.
Proof.
  intros E H. unfold Full.push_key. rewrite E.
  replace (max_arguments <? List.length elements)%nat with true; [reflexivity|].
  symmetry. apply Nat.ltb_lt. assumption.
Qed.

Lemma push_keys_cases (max_arguments : nat) (filters : Full.object)
    (keys : list jsstring) (pushed : list Full.jsvalue) :
  (Full.push_keys max_arguments filters keys pushed
   = Return (pushed ++ flat_map (Full.entry_parts filters) keys)
   /\ forall key elements,
        In key keys -> Full.Get filters key = Full.JArray elements ->
        (List.length elements <= max_arguments)%nat)
  \/ (Full.push_keys max_arguments filters keys pushed = Throw Full.range_error
      /\ exists key elements,
           In key keys /\ Full.Get filters key = Full.JArray elements
           /\ (max_arguments < List.length elements)%nat).
Proof.
  revert pushed; induction keys as [|key rest IH]; intros pushed.
  - left. split; [cbn; rewrite app_nil_r; reflexivity|].
    intros key elements [].
  - cbn [Full.push_keys flat_map].
    assert (Hkey : (forall elements,
                       Full.Get filters key = Full.JArray elements ->
                       (List.length elements <= max_arguments)%nat)
                   \/ exists elements,
                        Full.Get filters key = Full.JArray elements
                        /\ (max_arguments < List.length elements)%nat).
    { destruct (Full.Get filters key) as [| | | | |elements|];
        try (left; intros els Hels; discriminate Hels).
      destruct (Nat.le_gt_cases (List.length elements) max_arguments)
        as [Hle|Hgt].
      - left. intros els Hels. injection Hels as <-. exact Hle.
      - right. exists elements. split; [reflexivity | exact Hgt]. }
    destruct Hkey as [Hfit|(elements & E & Hgt)].
    + rewrite push_key_Return by exact Hfit.
      destruct (IH (pushed ++ Full.entry_parts filters key))
        as [[E Hall]|[E (k' & els & Hin & Hget & Hgt)]].
      * left. split; [rewrite E, <- app_assoc; reflexivity|].
        intros k' els [<-|Hin] Hget; [apply Hfit; exact Hget|].
        apply (Hall k' els Hin Hget).
      * right. split; [exact E|]. exists k', els. split; [right|]; auto.
    + right. rewrite (push_key_Throw _ _ _ _ elements E Hgt).
      split; [reflexivity|]. exists key, elements. split; [left|]; auto.
Qed.

Lemma join_loop_cases (sep : jsstring) (l : list Full.jsvalue) (k : nat)
    (R : jsstring) :
  ((exists s, Full.join_loop sep k R l = Some s)
   /\ Forall (fun e => Full.element_string e <> None) l)
  \/ (Full.join_loop sep k R l = None
      /\ ~ Forall (fun e => Full.element_string e <> None) l).
Proof.
  revert k R; induction l as [|e l IH]; intros k R.
  - left. split; [eexists; reflexivity | constructor].
  - rewrite join_loop_cons. destruct (Full.element_string e) as [next|] eqn:E.
    + destruct (IH (S k) ((if (0 <? k)%nat then R ++ sep else R) ++ next))
        as [[Hs Hall]|[Hn Hall]].
      * left. split; [exact Hs|]. constructor; [congruence | exact Hall].
      * right. split; [exact Hn|]. intros H. apply Hall.
        inversion H; assumption.
    + right. split; [reflexivity|]. intros H. inversion H; congruence.
Qed.

Lemma secret_rejected_invalid (secret : option jsstring) :
  secret_rejected secret = true <-> invalid_secret secret.
Proof.
  unfold secret_rejected, invalid_secret. destruct secret as [[|c s]|].
  - split; auto.
  - cbn [orb]. rewrite Nat.ltb_lt. split.
    + intros H. right; right. eexists; split; [reflexivity | exact H].
    + intros [H|[H|(s' & H & Hl)]]; try discriminate H.
      injection H as <-. exact Hl.
  - split; auto.
Qed.

Lemma valid_not_rejected (secret : option jsstring) :
  valid_secret secret -> secret_rejected secret = false.
Proof.
  intros (s & -> & Hs). unfold secret_rejected.
  destruct s as [|c s]; [cbn in Hs; lia|]. cbn [orb].
  apply Nat.ltb_ge. exact Hs.
Qed.

Lemma invalid_secret_throws (max_arguments : nat) (filters : Full.object)
    (secret : option jsstring) :
  invalid_secret secret ->
  Full.generateExplorerDigest max_arguments filters secret = Throw secret_error.
Proof.
  intros H. apply secret_rejected_invalid in H.
  unfold Full.generateExplorerDigest. destruct secret; [|reflexivity].
  rewrite H. reflexivity.
Qed.

(** The three ways the function ends under a valid secret. *)
Lemma valid_secret_cases (max_arguments : nat) (filters : Full.object)
    (secret : option jsstring) :
  valid_secret secret ->
  (Full.lists_fit max_arguments filters /\ Full.parts_convert filters
   /\ exists s filterString,
        secret = Some s
        /\ Full.Array_join (Full.parts filters) (js "|") = Some filterString
        /\ Full.generateExplorerDigest max_arguments filters secret
           = Return (hex (HMAC.hmac_sha1 (utf8 s) (utf8 filterString))))
  \/ (~ Full.lists_fit max_arguments filters
      /\ Full.generateExplorerDigest max_arguments filters secret
         = Throw Full.range_error)
  \/ (Full.lists_fit max_arguments filters /\ ~ Full.parts_convert filters
      /\ Full.generateExplorerDigest max_arguments filters secret
         = Throw Full.type_error).
Proof.
  intros Hs. pose proof (valid_not_rejected secret Hs) as Hr.
  destruct Hs as (s & -> & Hs). unfold Full.generateExplorerDigest.
  rewrite Hr.
  destruct (push_keys_cases max_arguments filters (Full.filterKeys filters) [])
    as [[E Hfit]|[E (key & elements & Hin & Hget & Hgt)]].
  - rewrite E. cbn [app]. fold (Full.parts filters).
    destruct (join_loop_cases (js "|") (Full.parts filters) 0 [])
      as [[(fs & Ej) Hall]|[Ej Hall]].
    + left. split; [exact Hfit|]. split; [exact Hall|].
      exists s, fs. unfold Full.Array_join. rewrite Ej. auto.
    + right; right. split; [exact Hfit|]. split; [exact Hall|].
      unfold Full.Array_join. rewrite Ej. reflexivity.
  - right; left. rewrite E. split; [|reflexivity].
    intros Hfit. specialize (Hfit key elements Hin Hget). lia.
Qed.

(** On values of the typed forms the general function is the typed one. *)
Lemma embed_digest (max_arguments : nat) (f : object)
    (secret : option jsstring) :
  Full.lists_fit max_arguments (Full.embed f) ->
  Full.generateExplorerDigest max_arguments (Full.embed f) secret
  = generateExplorerDigest f secret.
Proof.
  intros Hfit. unfold Full.generateExplorerDigest, generateExplorerDigest.
  destruct secret as [s|]; [|reflexivity].
  destruct (secret_rejected (Some s)); [reflexivity|].
  destruct (push_keys_cases max_arguments (Full.embed f)
              (Full.filterKeys (Full.embed f)) [])
    as [[E _]|[_ (key & elements & Hin & Hget & Hgt)]].
  - rewrite E. cbn [app]. fold (Full.parts (Full.embed f)).
    rewrite embed_parts. unfold Full.Array_join.
    rewrite embed_join_loop. reflexivity.
  - specialize (Hfit key elements Hin Hget). lia.
Qed.

Lemma Return_inj {A : Type} (a b : A) :
  @Return A a = Return b -> a = b.
Proof. intros H. injection H as ->. reflexivity. Qed.

(** Whatever the filters hold, a digest that is returned is the hex form
    of the HMAC-SHA1 of the joined [parts] under a valid secret. *)
Lemma returned_digest (max_arguments : nat) (filters : Full.object)
    (secret : option jsstring) (d : jsstring) :
  Full.generateExplorerDigest max_arguments filters secret = Return d ->
  exists s filterString,
    secret = Some s /\ (16 <= String_length s)%nat
    /\ Full.Array_join (Full.parts filters) (js "|") = Some filterString
    /\ d = hex (HMAC.hmac_sha1 (utf8 s) (utf8 filterString)).
Proof.
  intros H. destruct (secret_rejected secret) eqn:Er.
  { apply secret_rejected_invalid in Er.
    rewrite (invalid_secret_throws _ _ _ Er) in H. discriminate H. }
  assert (Hv : valid_secret secret).
  { destruct secret as [s|]; [|discriminate Er]. exists s.
    split; [reflexivity|]. unfold secret_rejected in Er.
    apply orb_false_iff in Er. destruct Er as [_ Er].
    apply Nat.ltb_ge, Er. }
  destruct (valid_secret_cases max_arguments filters secret Hv)
    as [(_ & _ & s & fs & Es & Ej & E)|[(_ & E)|(_ & _ & E)]];
    rewrite E in H; try discriminate H.
  apply Return_inj in H. subst d. exists s, fs.
  destruct Hv as (s' & Es' & Hl). rewrite Es in Es'.
  injection Es' as <-. auto.
Qed.

(* ------------------------------------------------------------------ *)
(** ** The claims *)

(** C1: for well-formed filter sets and a valid secret (at least 16
    characters), the digest does not depend on the keys [order],
    [page[number]] and [page[size]]: two filter sets that map every other
    key alike, whether or not the reserved keys are present and whatever
    their values, yield the same digest. *)
Theorem digest_ignores_excluded_keys
    (f1 f2 : object) (secret : option jsstring) :
  well_formed f1 -> well_formed f2 -> valid_secret secret ->
  (forall k, ~ ExcludedKeys k -> Get f1 k = Get f2 k) ->
  exists d, generateExplorerDigest f1 secret = Return d
            /\ generateExplorerDigest f2 secret = Return d.
Proof.
  intros H1 H2 Hs Hget. apply same_string_same_digest; [assumption|].
  apply filterString_agree; assumption.
Qed.

Lemma digest_ignores_excluded_keys_witness :
  exists d,
    generateExplorerDigest
      [(js "q", str "test"); (js "order", str "score_desc")] validSecret
    = Return d
    /\ generateExplorerDigest
         [(js "page[size]", num 25); (js "q", str "test");
          (js "order", str "date_desc")] validSecret
       = Return d.
Proof.
  apply digest_ignores_excluded_keys.
  - apply well_formed_by_computation; reflexivity.
  - apply well_formed_by_computation; reflexivity.
  - apply valid_secret_by_computation; reflexivity.
  - intros k Hk. cbn [Get].
    destruct (String_eqb (js "page[size]") k) eqn:E1;
      [apply String_eqb_eq in E1; exfalso; apply Hk; right; right; congruence|].
    destruct (String_eqb (js "q") k); [reflexivity|].
    destruct (String_eqb (js "order") k) eqn:E2;
      [apply String_eqb_eq in E2; exfalso; apply Hk; left; congruence|].
    reflexivity.
Defined.

(** C2: with a valid secret, the string that is signed is obtained from
    the unreserved keys taken in sorted order: each key is followed by the
    tokens of its value (the elements of a list in their own order, the
    single value otherwise) and the tokens are joined by a pipe that
    stands between neighbours only, so that the length of the string is
    the total length of the tokens plus one per gap.  The digest is the
    hex form of the HMAC of that string, and the filter set
    [{q: "climate", type: ["article", "dataset"]}] gives
    ["q|climate|type|article|dataset"]. *)
Theorem signed_string_is_canonical
    (filters : object) (s : jsstring) (sorted_keys : list jsstring) :
  (16 <= String_length s)%nat ->
  Permutation sorted_keys (remaining_keys filters) ->
  StronglySorted lex_le sorted_keys ->
  filterString filters = canonical_string filters sorted_keys
  /\ generateExplorerDigest filters (Some s)
     = Return (hex (HMAC.hmac_sha1 (utf8 s)
                      (utf8 (canonical_string filters sorted_keys))))
  /\ List.length (canonical_string filters sorted_keys)
     = (list_sum (map (@List.length code_unit)
                      (flat_map (key_tokens filters) sorted_keys))
        + (List.length (flat_map (key_tokens filters) sorted_keys) - 1))%nat
  /\ filterString
       [(js "q", str "climate"); (js "type", arr [js "article"; js "dataset"])]
     = js "q|climate|type|article|dataset".
Proof.
  intros Hlen HP Hs.
  assert (Hk : filterKeys filters = sorted_keys).
  { unfold filterKeys. apply Array_sort_unique; [|assumption].
    rewrite HP. unfold remaining_keys.
    apply filter_perm. symmetry; apply Object_keys_perm. }
  assert (E : filterString filters = canonical_string filters sorted_keys)
    by (rewrite filterString_canonical, Hk; reflexivity).
  split; [exact E|]. split; [|split].
  - rewrite digest_valid by assumption. rewrite E; reflexivity.
  - unfold canonical_string. rewrite intercalate_length.
    cbn [js List.length map list_ascii_of_string]. lia.
  - reflexivity.
Qed.

Lemma signed_string_is_canonical_witness :
  filterString
    [(js "type", arr [js "article"; js "dataset"]); (js "order", str "x");
     (js "q", str "climate")]
  = js "q|climate|type|article|dataset"
  /\ generateExplorerDigest
       [(js "type", arr [js "article"; js "dataset"]); (js "order", str "x");
        (js "q", str "climate")] validSecret
     = Return (js "b6b6fe9602ce7b5f499d45f09f907ac20e135ba7").
Proof.
  destruct (signed_string_is_canonical
              [(js "type", arr [js "article"; js "dataset"]);
               (js "order", str "x"); (js "q", str "climate")]
              (js "this-is-a-valid-secret-key")
              [js "q"; js "type"]) as (E & D & _).
  - vm_compute. lia.
  - apply perm_swap.
  - repeat constructor.
  - split; [rewrite E; reflexivity|].
    unfold validSecret. rewrite D. vm_compute. reflexivity.
Defined.

(** C3, amended: a secret that is missing, empty or shorter than 16
    characters makes the function throw the secret error whatever the
    filters are, the test being made before they are looked at, and the
    secret error is thrown in no other case.  With a secret of 16
    characters or more the function returns a digest exactly when every
    signed list fits one argument list and every signed value has a
    string; a list that does not fit ends it with a [RangeError], a value
    without a string with a [TypeError].  Filters that hold strings,
    numbers and lists of these within that length are always signed. *)
Theorem secret_is_checked_first (max_arguments : nat) (filters : Full.object)
    (secret : option jsstring) :
  (invalid_secret secret ->
   forall anything : Full.object,
     Full.generateExplorerDigest max_arguments anything secret
     = Throw secret_error)
  /\ (Full.generateExplorerDigest max_arguments filters secret
      = Throw secret_error
      <-> invalid_secret secret)
  /\ (valid_secret secret ->
      ((exists d, Full.generateExplorerDigest max_arguments filters secret
                  = Return d)
       <-> Full.lists_fit max_arguments filters /\ Full.parts_convert filters)
      /\ (Full.generateExplorerDigest max_arguments filters secret
          = Throw Full.range_error
          <-> ~ Full.lists_fit max_arguments filters)
      /\ (Full.generateExplorerDigest max_arguments filters secret
          = Throw Full.type_error
          <-> Full.lists_fit max_arguments filters
              /\ ~ Full.parts_convert filters))
  /\ (valid_secret secret ->
      forall typed : object,
        Full.lists_fit max_arguments (Full.embed typed) ->
        Full.generateExplorerDigest max_arguments (Full.embed typed) secret
        = generateExplorerDigest typed secret
        /\ exists d, generateExplorerDigest typed secret = Return d).
Proof.
  split; [|split; [|split]].
  - intros H anything. apply invalid_secret_throws, H.
  - split; [|apply invalid_secret_throws].
    intros E. destruct (secret_rejected secret) eqn:Er.
    { apply secret_rejected_invalid, Er. }
    assert (Hv : valid_secret secret).
    { destruct secret as [s|]; [|discriminate Er]. exists s.
      split; [reflexivity|]. unfold secret_rejected in Er.
      apply orb_false_iff in Er. destruct Er as [_ Er].
      apply Nat.ltb_ge, Er. }
    destruct (valid_secret_cases max_arguments filters secret Hv)
      as [(_ & _ & s & fs & _ & _ & E')|[(_ & E')|(_ & _ & E')]];
      rewrite E' in E; discriminate E.
  - intros Hv.
    destruct (valid_secret_cases max_arguments filters secret Hv)
      as [(Hfit & Hall & s & fs & _ & _ & E)|[(Hfit & E)|(Hfit & Hall & E)]];
      rewrite E; (split; [|split]); split;
      try (intros H; discriminate H);
      try (intros (d & H); discriminate H);
      try tauto.
    intros _. eexists; reflexivity.
  - intros Hv typed Hfit. split; [apply embed_digest, Hfit|].
    destruct (valid_secret_returns typed secret Hv) as (s & _ & E).
    eexists; exact E.
Qed.

Lemma secret_is_checked_first_witness :
  Full.generateExplorerDigest 1000
    [(js "q", Full.JObject [(js "toString", Full.JNumber (number_of_Z 1))])]
    (Some (js "short"))
  = Throw secret_error
  /\ Full.generateExplorerDigest 1000
       [(js "q", Full.JString (js "test"))] None
     = Throw secret_error
  /\ Full.generateExplorerDigest 1000
       (Full.embed [(js "q", str "test")]) validSecret
     = Return (js "29180baf0cc29b5da326df230c80064db2180a7c").
Proof.
  split; [|split].
  - apply (proj1 (secret_is_checked_first 1000 [] (Some (js "short")))).
    right; right. exists (js "short"). split; [reflexivity|].
    vm_compute. lia.
  - apply (proj1 (secret_is_checked_first 1000 [] None)).
    left; reflexivity.
  - destruct (proj2 (proj2 (proj2 (secret_is_checked_first 1000 []
                                     validSecret)))
                (valid_secret_by_computation
                   (js "this-is-a-valid-secret-key") eq_refl)
                [(js "q", str "test")]) as (E & _).
    + intros key elements _ H. unfold Full.embed in H.
      cbn [map fst snd str Full.embed_value Full.embed_scalar Full.Get] in H.
      destruct (String_eqb (js "q") key); discriminate H.
    + rewrite E. vm_compute. reflexivity.
Defined.

(** C3 as worded fails: under a valid secret, a filter whose value is an
    object with a property [toString] of its own ends the function with a
    [TypeError], and a list longer than an argument list can be ends it
    with a [RangeError]. *)
Lemma valid_secret_does_not_prevent_failure :
  valid_secret validSecret
  /\ (forall max_arguments,
        Full.generateExplorerDigest max_arguments
          [(js "q", Full.JObject
                      [(js "toString", Full.JNumber (number_of_Z 1))])]
          validSecret
        = Throw Full.type_error)
  /\ (forall max_arguments elements,
        (max_arguments < List.length elements)%nat ->
        Full.generateExplorerDigest max_arguments
          [(js "type", Full.JArray elements)] validSecret
        = Throw Full.range_error).
Proof.
  split; [apply valid_secret_by_computation; reflexivity|]. split.
  - intros max_arguments. reflexivity.
  - intros max_arguments elements H.
    unfold Full.generateExplorerDigest, validSecret.
    change (secret_rejected (Some (js "this-is-a-valid-secret-key")))
      with false. cbv iota.
    change (Full.filterKeys [(js "type", Full.JArray elements)])
      with [js "type"].
    cbn [Full.push_keys].
    rewrite (push_key_Throw _ _ _ _ elements); [reflexivity|reflexivity|exact H].
Qed.

(** C4: with a valid secret, the order in which the keys were put into
    the filter set does not matter: a reordering of the entries, and more
    generally any filter set that maps every key to the same value, has
    the same digest. *)
Theorem digest_independent_of_insertion_order
    (f1 f2 : object) (secret : option jsstring) :
  well_formed f1 -> well_formed f2 -> valid_secret secret ->
  Permutation f1 f2 \/ (forall k, Get f1 k = Get f2 k) ->
  exists d, generateExplorerDigest f1 secret = Return d
            /\ generateExplorerDigest f2 secret = Return d.
Proof.
  intros H1 H2 Hs Hsame. apply same_string_same_digest; [assumption|].
  apply filterString_agree; try assumption.
  intros k _. destruct Hsame as [HP|Hget]; [|apply Hget].
  apply Get_perm; assumption.
Qed.

Lemma digest_independent_of_insertion_order_witness :
  exists d,
    generateExplorerDigest
      [(js "q", str "test"); (js "scope", str "all");
       (js "timeframe", str "1w")] validSecret = Return d
    /\ generateExplorerDigest
         [(js "timeframe", str "1w"); (js "q", str "test");
          (js "scope", str "all")] validSecret = Return d.
Proof.
  apply digest_independent_of_insertion_order.
  - apply well_formed_by_computation; reflexivity.
  - apply well_formed_by_computation; reflexivity.
  - apply valid_secret_by_computation; reflexivity.
  - left. symmetry.
    apply (Permutation_cons_append
             [(js "q", str "test"); (js "scope", str "all")]
             (js "timeframe", str "1w")).
Defined.

(** C5, as worded: a filter set whose signed keys are not in code point
    order.  The key U+FF5E precedes U+1F600 by code point, yet the sort
    puts the latter first, its leading code unit being 0xD83D. *)
Lemma filter_keys_not_in_code_point_order :
  ~ keys_in_code_point_order
      [([0xFF5E], str "a"); ([0xD83D; 0xDE00], str "b")].
Proof.
  unfold keys_in_code_point_order. intros H.
  change (filterKeys [([0xFF5E], str "a"); ([0xD83D; 0xDE00], str "b")])
    with [[0xD83D; 0xDE00]; [0xFF5E]] in H.
  inversion H as [|? ? _ Hall]; subst.
  inversion Hall as [|? ? Hle _]; subst.
  unfold code_point_le in Hle. cbn in Hle.
  destruct Hle as [Hlt|Heq]; [|discriminate].
  inversion Hlt; subst; lia.
Qed.

Lemma code_points_id (s : jsstring) :
  has_surrogate_pair s = false -> code_points s = s.
Proof.
  induction s as [|c s IH]; [reflexivity|].
  destruct s as [|d s']; [reflexivity|].
  intros H.
  change ((is_high_surrogate c && is_low_surrogate d)
          || has_surrogate_pair (d :: s') = false) in H.
  apply orb_false_iff in H. destruct H as [Hp Hrest].
  change (code_points (c :: d :: s'))
    with (if is_high_surrogate c && is_low_surrogate d
          then surrogate_pair c d :: code_points s'
          else c :: code_points (d :: s')).
  rewrite Hp, (IH Hrest). reflexivity.
Qed.

Lemma sorted_code_points (l : list jsstring) :
  Forall (fun k => has_surrogate_pair k = false) l ->
  StronglySorted lex_le l ->
  StronglySorted code_point_le l.
Proof.
  intros Hall Hs; induction Hs as [|a l Hs IH Hle]; [constructor|].
  inversion Hall as [|? ? Ha Hl]; subst.
  constructor; [auto|].
  rewrite Forall_forall in *. intros b Hb. unfold code_point_le.
  rewrite (code_points_id a Ha), (code_points_id b (Hl b Hb)). auto.
Qed.

(** C5, amended: the signed keys are the unreserved keys, sorted in
    ascending lexicographic order of their UTF-16 code units, position by
    position; this is code point order whenever no key contains a
    surrogate pair, a high surrogate followed by a low one (a surrogate
    that stands alone does no harm); keys that look like numbers are
    compared as strings. *)
Theorem filter_keys_in_code_unit_order (filters : object) :
  Permutation (filterKeys filters) (remaining_keys filters)
  /\ StronglySorted lex_le (filterKeys filters)
  /\ (Forall (fun k => has_surrogate_pair k = false) (own_keys filters) ->
      keys_in_code_point_order filters)
  /\ filterKeys [(js "9", str "a"); (js "10", str "b"); (js "1e3", str "c")]
     = [js "10"; js "1e3"; js "9"].
Proof.
  split; [apply filterKeys_perm|]. split; [apply filterKeys_sorted|].
  split; [|reflexivity].
  intros Hall. apply sorted_code_points; [|apply filterKeys_sorted].
  rewrite Forall_forall in *. intros k Hk.
  apply filterKeys_In in Hk. apply Hall; tauto.
Qed.

Lemma filter_keys_in_code_unit_order_witness :
  keys_in_code_point_order
    [(js "timeframe", str "1w"); ([0xD83D], str "alone"); (js "q", str "test");
     (js "10", str "b"); ([0xFF5E], str "wide"); (js "9", str "a")]
  /\ filterKeys
       [(js "timeframe", str "1w"); ([0xD83D], str "alone");
        (js "q", str "test"); (js "10", str "b"); ([0xFF5E], str "wide");
        (js "9", str "a")]
     = [js "10"; js "9"; js "q"; js "timeframe"; [0xD83D]; [0xFF5E]].
Proof.
  split; [|reflexivity].
  apply (proj1 (proj2 (proj2 (filter_keys_in_code_unit_order
    [(js "timeframe", str "1w"); ([0xD83D], str "alone"); (js "q", str "test");
     (js "10", str "b"); ([0xFF5E], str "wide"); (js "9", str "a")])))).
  repeat constructor.
Defined.

(** C6: with a valid secret, a filter set that is empty, or that holds
    reserved keys only, is still signed: the signed string is empty and
    the digest is the hex form of the HMAC-SHA1 of the empty message under
    the secret; for the secret of the tests this is one fixed value. *)
Theorem empty_filters_are_signed (filters : object) (s : jsstring) :
  (16 <= String_length s)%nat ->
  (forall k, In k (own_keys filters) -> ExcludedKeys k) ->
  filterString filters = []
  /\ generateExplorerDigest filters (Some s)
     = Return (hex (HMAC.hmac_sha1 (utf8 s) []))
  /\ generateExplorerDigest [] validSecret
     = Return (js "7ee76f765974ed27b6295549f1fc5925d8798a06").
Proof.
  intros Hlen Hex.
  assert (E : filterString filters = []).
  { unfold filterString, parts.
    rewrite (filterKeys_nil filters Hex). reflexivity. }
  split; [exact E|]. split.
  - rewrite digest_valid by assumption. rewrite E. reflexivity.
  - vm_compute. reflexivity.
Qed.

Lemma empty_filters_are_signed_witness :
  filterString [(js "order", str "score_desc"); (js "page[number]", num 2)]
  = []
  /\ generateExplorerDigest
       [(js "order", str "score_desc"); (js "page[number]", num 2)]
       validSecret
     = generateExplorerDigest [] validSecret.
Proof.
  destruct (empty_filters_are_signed
              [(js "order", str "score_desc"); (js "page[number]", num 2)]
              (js "this-is-a-valid-secret-key")) as (E & D & _).
  - vm_compute. lia.
  - intros k [<-|[<-|[]]]; [left | right; left]; reflexivity.
  - split; [exact E|].
    destruct (empty_filters_are_signed [] (js "this-is-a-valid-secret-key"))
      as (_ & D0 & _).
    + vm_compute. lia.
    + intros k [].
    + unfold validSecret. rewrite D, D0. reflexivity.
Defined.



















(** C8: with a valid secret the result is the hex form of the 20 bytes of
    the HMAC-SHA1 of the signed string under the secret, both as UTF-8: a
    string of exactly 40 characters, each a lowercase hexadecimal digit.
    The same holds of every digest that is returned when the filters
    hold values of any kind. *)
Theorem digest_is_forty_lowercase_hex
    (filters : object) (secret : option jsstring) :
  valid_secret secret ->
  exists s d,
    secret = Some s
    /\ generateExplorerDigest filters secret = Return d
    /\ d = hex (HMAC.hmac_sha1 (utf8 s) (utf8 (filterString filters)))
    /\ List.length (HMAC.hmac_sha1 (utf8 s) (utf8 (filterString filters)))
       = 20%nat
    /\ Forall (fun b => b < 256)
              (HMAC.hmac_sha1 (utf8 s) (utf8 (filterString filters)))
    /\ List.length d = 40%nat
    /\ Forall (fun c => is_lower_hex c = true) d
    /\ (forall max_arguments (anything : Full.object) (d' : jsstring),
          Full.generateExplorerDigest max_arguments anything secret
          = Return d' ->
          (exists filterString,
              Full.Array_join (Full.parts anything) (js "|")
              = Some filterString
              /\ d' = hex (HMAC.hmac_sha1 (utf8 s) (utf8 filterString)))
          /\ List.length d' = 40%nat
          /\ Forall (fun c => is_lower_hex c = true) d').
Proof.
  intros Hs. destruct (valid_secret_returns filters secret Hs) as (s & Es & E).
  exists s. eexists. split; [exact Es|]. split; [exact E|].
  split; [reflexivity|]. split; [apply hmac_length|].
  split; [apply hmac_range|]. split; [|split].
  - rewrite hex_length, hmac_length. reflexivity.
  - apply hex_lower, hmac_range.
  - intros max_arguments anything d' H.
    destruct (returned_digest _ _ _ _ H) as (s' & fs & Es' & _ & Ej & ->).
    rewrite Es in Es'. injection Es' as <-.
    split; [exists fs; split; [exact Ej | reflexivity]|]. split.
    + rewrite hex_length, hmac_length. reflexivity.
    + apply hex_lower, hmac_range.
Qed.

Lemma digest_is_forty_lowercase_hex_witness :
  generateExplorerDigest [(js "q", str "test")] validSecret
  = Return (js "29180baf0cc29b5da326df230c80064db2180a7c")
  /\ List.length (js "29180baf0cc29b5da326df230c80064db2180a7c") = 40%nat.
Proof.
  destruct (digest_is_forty_lowercase_hex [(js "q", str "test")] validSecret)
    as (s & d & Es & E & Ed & _ & _ & L & _).
  - apply valid_secret_by_computation; reflexivity.
  - assert (Hd : d = js "29180baf0cc29b5da326df230c80064db2180a7c").
    { injection Es as <-. rewrite Ed. vm_compute. reflexivity. }
    rewrite <- Hd. split; [exact E | exact L].
Defined.

(** C9: with a valid secret, a key that holds a scalar and the same key
    holding the one-element list of that scalar, all other entries being
    equal, give the same digest. *)
Theorem scalar_and_singleton_list_sign_alike
    (before after : object) (k : jsstring) (v : scalar)
    (secret : option jsstring) :
  valid_secret secret ->
  exists d,
    generateExplorerDigest (before ++ (k, VScalar v) :: after) secret
    = Return d
    /\ generateExplorerDigest (before ++ (k, VArray [v]) :: after) secret
       = Return d.
Proof.
  intros Hs. apply same_string_same_digest; [assumption|].
  apply filterString_ext.
  - unfold filterKeys, Object_keys, own_keys.
    rewrite !map_app. reflexivity.
  - intros k' _. unfold entry_parts. rewrite !Get_app.
    destruct (Get before k'); [reflexivity|].
    cbn [Get]. destruct (String_eqb k k'); reflexivity.
Qed.

Lemma scalar_and_singleton_list_sign_alike_witness :
  exists d,
    generateExplorerDigest
      [(js "q", str "test"); (js "type", str "article")] validSecret
    = Return d
    /\ generateExplorerDigest
         [(js "q", str "test"); (js "type", arr [js "article"])] validSecret
       = Return d.
Proof.
  apply (scalar_and_singleton_list_sign_alike
           [(js "q", str "test")] [] (js "type") (SString (js "article"))).
  apply valid_secret_by_computation; reflexivity.
Defined.

(** C10: only key names are excluded.  Every token of the value of an
    unreserved key is a token of the signed string, also when that token
    reads [order], [page[number]] or [page[size]]; such a value changes
    the signed string and the digest. *)
Theorem excluded_names_as_values_are_signed
    (filters : object) (k : jsstring) (v : value) (t : jsstring) :
  Get filters k = Some v ->
  ~ ExcludedKeys k ->
  ExcludedKeys t ->
  In t (value_tokens v) ->
  In t (flat_map (key_tokens filters) (filterKeys filters))
  /\ filterString filters
     = intercalate (js "|") (flat_map (key_tokens filters) (filterKeys filters))
  /\ (exists pre post, filterString filters = pre ++ t ++ post)
  /\ filterString
       [(js "q", str "order");
        (js "type", arr [js "page[number]"; js "page[size]"]);
        (js "order", str "score_desc")]
     = js "q|order|type|page[number]|page[size]"
  /\ generateExplorerDigest [(js "q", str "order")] validSecret
     <> generateExplorerDigest [(js "q", arr [])] validSecret.
Proof.
  intros Hget Hk _ Ht.
  assert (Hin : In t (flat_map (key_tokens filters) (filterKeys filters))).
  { apply in_flat_map. exists k. split.
    - apply filterKeys_In. split; [|assumption]. apply Get_In; congruence.
    - unfold key_tokens. rewrite Hget. right; assumption. }
  split; [exact Hin|]. split; [apply filterString_canonical|].
  split; [|split].
  - rewrite filterString_canonical. apply intercalate_In; assumption.
  - reflexivity.
  - vm_compute. discriminate.
Qed.

Lemma excluded_names_as_values_are_signed_witness :
  exists pre post,
    filterString [(js "type", arr [js "article"; js "page[size]"])]
    = pre ++ js "page[size]" ++ post.
Proof.
  apply (proj1 (proj2 (proj2 (excluded_names_as_values_are_signed
    [(js "type", arr [js "article"; js "page[size]"])] (js "type")
    (arr [js "article"; js "page[size]"]) (js "page[size]")
    eq_refl
    (fun H => match H with
              | or_introl E => ltac:(discriminate E)
              | or_intror (or_introl E) => ltac:(discriminate E)
              | or_intror (or_intror E) => ltac:(discriminate E)
              end)
    (or_intror (or_intror eq_refl))
    (or_intror (or_introl eq_refl)))))).
Defined.

(* ------------------------------------------------------------------ *)
(** ** Further properties of the signed string *)

Lemma tail_join_app (sep : jsstring) (l1 l2 : list jsstring) :
  tail_join sep (l1 ++ l2) = tail_join sep l1 ++ tail_join sep l2.
Proof. unfold tail_join. rewrite map_app, concat_app. reflexivity. Qed.

Lemma tail_join_flat_map {A} (sep : jsstring) (g1 g2 : A -> list jsstring)
    (ks : list A) :
  (forall k, In k ks -> tail_join sep (g1 k) = tail_join sep (g2 k)) ->
  tail_join sep (flat_map g1 ks) = tail_join sep (flat_map g2 ks).
Proof.
  induction ks as [|k ks IH]; intros H; [reflexivity|].
  cbn [flat_map]. rewrite !tail_join_app. f_equal.
  - apply H. left; reflexivity.
  - apply IH. intros k' Hk'. apply H. right; assumption.
Qed.

Lemma canonical_string_tail (filters : object) (ks : list jsstring) :
  (js "|") ++ canonical_string filters ks
  = match ks with
    | [] => js "|"
    | _ :: _ => tail_join (js "|") (flat_map (key_tokens filters) ks)
    end.
Proof.
  unfold canonical_string. destruct ks as [|k ks]; [reflexivity|].
  cbn [flat_map]. unfold key_tokens at 1 3. cbn [app].
  rewrite intercalate_cons. reflexivity.
Qed.

(** Two filter sets sign alike when they have the same sorted keys and
    each key writes the same characters. *)
Lemma filterString_tail_ext (f1 f2 : object) :
  filterKeys f1 = filterKeys f2 ->
  (forall k, In k (filterKeys f1) ->
     tail_join (js "|") (key_tokens f1 k) = tail_join (js "|") (key_tokens f2 k)) ->
  filterString f1 = filterString f2.
Proof.
  intros Hk Ht.
  apply (app_inv_head (js "|")).
  rewrite !filterString_canonical, !canonical_string_tail, <- Hk.
  destruct (filterKeys f1) as [|k ks] eqn:E; [reflexivity|].
  apply tail_join_flat_map. exact Ht.
Qed.

Lemma same_keys_filterKeys (f1 f2 : object) :
  own_keys f1 = own_keys f2 -> filterKeys f1 = filterKeys f2.
Proof. unfold filterKeys, Object_keys. intros ->. reflexivity. Qed.

(** X1: the separator is not escaped: under a valid secret, a string value
    that contains a pipe has the same digest as the list of its two
    halves. *)
Theorem pipe_in_value_signs_like_list
    (before after : object) (k a b : jsstring) (secret : option jsstring) :
  valid_secret secret ->
  exists d,
    generateExplorerDigest
      (before ++ (k, VScalar (SString (a ++ js "|" ++ b))) :: after) secret
    = Return d
    /\ generateExplorerDigest
         (before ++ (k, VArray [SString a; SString b]) :: after) secret
       = Return d.
Proof.
  intros Hs. apply same_string_same_digest; [assumption|].
  apply filterString_tail_ext.
  - apply same_keys_filterKeys. unfold own_keys. rewrite !map_app. reflexivity.
  - intros k' _. unfold key_tokens. rewrite !Get_app.
    destruct (Get before k'); [reflexivity|].
    cbn [Get]. destruct (String_eqb k k'); [|reflexivity].
    unfold tail_join. cbn [value_tokens ToString map List.concat].
    rewrite <- !app_assoc. reflexivity.
Qed.

Lemma pipe_in_value_signs_like_list_witness :
  exists d,
    generateExplorerDigest [(js "q", str "climate|change")] validSecret
    = Return d
    /\ generateExplorerDigest
         [(js "q", arr [js "climate"; js "change"])] validSecret
       = Return d.
Proof.
  apply (pipe_in_value_signs_like_list [] [] (js "q") (js "climate")
           (js "change") validSecret).
  apply valid_secret_by_computation; reflexivity.
Defined.


Lemma not_excluded_includes (k : jsstring) :
  ~ ExcludedKeys k -> includes excludeFromDigest k = false.
Proof.
  intros H. destruct (includes excludeFromDigest k) eqn:E; [|reflexivity].
  apply includes_excluded in E. contradiction.
Qed.



(* ------------------------------------------------------------------ *)
(** ** The Explorer request *)

Lemma toUSVString_id (s : jsstring) :
  Forall (fun c => is_high_surrogate c = false /\ is_low_surrogate c = false) s ->
  toUSVString s = s.
Proof.
  induction 1 as [|c s [Hh Hl] _ IH]; [reflexivity|].
  cbn [toUSVString]. rewrite Hh, Hl, IH. reflexivity.
Qed.

Lemma lower_hex_not_surrogate (c : code_unit) :
  is_lower_hex c = true ->
  is_high_surrogate c = false /\ is_low_surrogate c = false.
Proof.
  unfold is_lower_hex, is_high_surrogate, is_low_surrogate.
  rewrite orb_true_iff, !andb_true_iff, !N.leb_le.
  intros H. split; apply andb_false_iff; left; apply N.leb_gt; lia.
Qed.

Lemma fold_append_elements (name : jsstring) (vs : list scalar)
    (sp : URLSearchParams) :
  fold_left (fun sp v => append sp name (ToString v)) vs sp
  = sp ++ map (fun x => (toUSVString name, toUSVString (ToString x))) vs.
Proof.
  revert sp; induction vs as [|v vs IH]; intros sp; simpl.
  - rewrite app_nil_r; reflexivity.
  - rewrite IH. unfold append. rewrite <- app_assoc. reflexivity.
Qed.

Lemma append_filter_entry (sp : URLSearchParams) (key : jsstring)
    (v : option value) :
  append_filter sp (key, v)
  = sp ++ match v with Some v => entry_params key v | None => [] end.
Proof.
  unfold append_filter, entry_params. cbn [fst snd].
  destruct v as [[x|vs]|]; [| |rewrite app_nil_r; reflexivity];
    destruct (includes nonFilterParams key); try reflexivity.
  apply fold_append_elements.
Qed.

Lemma fold_append_filter (filters : object) (ks : list jsstring)
    (sp : URLSearchParams) :
  fold_left append_filter (map (fun key => (key, Get filters key)) ks) sp
  = sp ++ flat_map (fun key => match Get filters key with
                               | Some v => entry_params key v
                               | None => []
                               end) ks.
Proof.
  revert sp; induction ks as [|k ks IH]; intros sp; simpl.
  - rewrite app_nil_r; reflexivity.
  - rewrite IH, append_filter_entry, <- app_assoc. reflexivity.
Qed.

(** A [forEach] whose callback has thrown does nothing more. *)
Lemma forEach_None {S A : Type} (callback : S -> A -> option S) (l : list A) :
  Full.forEach callback l None = None.
Proof. induction l as [|a l IH]; [reflexivity | exact IH]. Qed.

Lemma forEach_append_value (name : jsstring) (vs : list Full.jsvalue)
    (sp : URLSearchParams) :
  Full.forEach (fun sp v => Full.append_value sp name v) vs (Some sp)
  = option_map
      (fun l => sp ++ map (fun s => (toUSVString name, toUSVString s)) l)
      (Full.strings vs).
Proof.
  revert sp; induction vs as [|v vs IH]; intros sp.
  - cbn. rewrite app_nil_r. reflexivity.
  - unfold Full.forEach. cbn [fold_left Full.strings].
    fold (Full.forEach (fun sp v => Full.append_value sp name v) vs
            (Full.append_value sp name v)).
    unfold Full.append_value at 2.
    destruct (Full.ToString v) as [s|]; [|apply forEach_None].
    rewrite IH. unfold append.
    destruct (Full.strings vs); [|reflexivity].
    cbn [option_map map]. rewrite <- app_assoc. reflexivity.
Qed.

Lemma append_filter_params (sp : URLSearchParams) (key : jsstring)
    (v : Full.jsvalue) :
  Full.append_filter sp (key, v)
  = option_map (app sp) (Full.entry_params key v).
Proof.
  unfold Full.append_filter, Full.entry_params. cbn [fst snd].
  destruct v; try (cbn [option_map]; rewrite app_nil_r; reflexivity);
    destruct (includes nonFilterParams key);
    try (unfold Full.append_value, append;
         destruct (Full.ToString _); reflexivity).
  rewrite forEach_append_value.
  destruct (Full.strings elements); reflexivity.
Qed.

Lemma forEach_append_filter (entries : list (jsstring * Full.jsvalue))
    (sp : URLSearchParams) :
  Full.forEach Full.append_filter entries (Some sp)
  = option_map (app sp) (Full.entries_params entries).
Proof.
  revert sp; induction entries as [|[key v] rest IH]; intros sp.
  - cbn. rewrite app_nil_r. reflexivity.
  - unfold Full.forEach. cbn [fold_left Full.entries_params].
    fold (Full.forEach Full.append_filter rest
            (Full.append_filter sp (key, v))).
    rewrite append_filter_params.
    destruct (Full.entry_params key v) as [l|]; [|apply forEach_None].
    cbn [option_map]. rewrite IH.
    destruct (Full.entries_params rest); [|reflexivity].
    cbn [option_map]. rewrite app_assoc. reflexivity.
Qed.

Lemma embed_strings (xs : list scalar) :
  Full.strings (map Full.embed_scalar xs) = Some (map ToString xs).
Proof.
  induction xs as [|x xs IH]; [reflexivity|].
  cbn [map Full.strings]. rewrite embed_scalar_ToString, IH. reflexivity.
Qed.

Lemma embed_entry_params (key : jsstring) (v : value) :
  Full.entry_params key (Full.embed_value v) = Some (entry_params key v).
Proof.
  unfold Full.entry_params, entry_params.
  destruct v as [[s|x]|xs]; cbn [Full.embed_value Full.embed_scalar];
    destruct (includes nonFilterParams key); try reflexivity.
  - change (Full.JArray (map Full.embed_scalar xs))
      with (Full.embed_value (VArray xs)).
    rewrite embed_value_ToString. reflexivity.
  - rewrite embed_strings. cbn [option_map]. rewrite map_map. reflexivity.
Qed.

(** On filters of the typed forms no conversion fails, and the filter
    part of the query is the typed one. *)
Lemma embed_wire_params (f : object) :
  Full.wire_params (Full.embed f) = Some (wire_params f).
Proof.
  unfold Full.wire_params, Full.Object_entries, wire_params.
  rewrite embed_Object_keys.
  induction (Object_keys f) as [|key ks IH]; [reflexivity|].
  cbn [map Full.entries_params flat_map]. rewrite IH, embed_Get.
  destruct (Get f key) as [v|]; [|reflexivity].
  rewrite embed_entry_params. reflexivity.
Qed.

(** The callback on typed entries is the general one. *)
Lemma embed_append_filter (sp : URLSearchParams) (key : jsstring)
    (v : option value) :
  Full.append_filter sp
    (key, match v with
          | Some v => Full.embed_value v
          | None => Full.JUndefined
          end)
  = Some (append_filter sp (key, v)).
Proof.
  rewrite append_filter_params, append_filter_entry.
  destruct v as [v|]; [rewrite embed_entry_params|]; reflexivity.
Qed.

Lemma digest_is_hex (max_arguments : nat) (filters : Full.object)
    (secret : option jsstring) (d : jsstring) :
  Full.generateExplorerDigest max_arguments filters secret = Return d ->
  exists mac, d = hex mac /\ List.length mac = 20%nat
              /\ Forall (fun b => b < 256) mac.
Proof.
  unfold Full.generateExplorerDigest. destruct secret as [s|]; [|discriminate].
  destruct (secret_rejected (Some s)); [discriminate|].
  destruct (Full.push_keys _ _ _ _); [|discriminate].
  destruct (Full.Array_join _ _) as [fs|]; [|discriminate].
  intros H. apply Return_inj in H. subst d. eexists. split; [reflexivity|].
  split; [apply hmac_length | apply hmac_range].
Qed.

Lemma digest_toUSVString (max_arguments : nat) (filters : Full.object)
    (secret : option jsstring) (d : jsstring) :
  Full.generateExplorerDigest max_arguments filters secret = Return d ->
  toUSVString d = d /\ List.length d = 40%nat.
Proof.
  intros H. apply digest_is_hex in H. destruct H as (mac & -> & Hl & Hr).
  split; [|rewrite hex_length, Hl; reflexivity].
  apply toUSVString_id. eapply Forall_impl; [|apply hex_lower, Hr].
  intros c Hc. apply lower_hex_not_surrogate; assumption.
Qed.

Lemma settle_unfold {J : Type} (api : jsstring)
    (r : outcome (@Full.response J)) :
  match r with
  | Rejected message => ([], Rejected message)
  | Resolved response =>
      if negb (Full.ok response) then
        match Full.text response with
        | Rejected message => ([], Rejected message)
        | Resolved errorText =>
            ([api ++ js " API error ("
                ++ Number_toString (number_of_Z (Full.status response))
                ++ js "): " ++ errorText],
             Rejected (request_failed (Full.status response)))
        end
      else ([], Full.json response)
  end
  = Full.settle api r.
Proof.
  destruct r as [response|m]; [|reflexivity].
  unfold Full.settle. destruct (Full.ok response); reflexivity.
Qed.

(** The steps of [makeExplorerApiRequest], each with what ends it. *)
Lemma explorer_request_steps (max_arguments : nat) {URL J : Type}
    (new_URL : jsstring -> jsstring -> option URL)
    (fetch : URL * URLSearchParams -> outcome (@Full.response J))
    (endpoint baseUrl : jsstring) (filters : Full.object)
    (apiKey apiSecret : option jsstring) :
  Full.makeExplorerApiRequest max_arguments new_URL fetch endpoint filters
    apiKey apiSecret baseUrl
  = if truthy_string apiKey then
      match new_URL endpoint baseUrl with
      | None => ([], Rejected Full.invalid_url)
      | Some url =>
          match Full.wire_params filters with
          | None => ([], Rejected (js Full.type_error))
          | Some wp =>
              match Full.generateExplorerDigest max_arguments filters
                      apiSecret with
              | Throw message => ([], Rejected (js message))
              | Return d =>
                  Full.settle (js "Explorer")
                    (fetch (url,
                            (js "key",
                             toUSVString (string_or_undefined apiKey))
                            :: wp ++ [(js "digest", d)]))
              end
          end
      end
    else ([], Rejected explorer_key_error).
Proof.
  unfold Full.makeExplorerApiRequest.
  destruct (truthy_string apiKey); cbn [negb]; [|reflexivity].
  destruct (new_URL endpoint baseUrl) as [url|]; [|reflexivity].
  rewrite forEach_append_filter. fold (Full.wire_params filters).
  destruct (Full.wire_params filters) as [wp|]; [|reflexivity].
  cbn [option_map].
  destruct (Full.generateExplorerDigest max_arguments filters apiSecret)
    as [d|m] eqn:Ed; [|reflexivity].
  destruct (digest_toUSVString _ _ _ _ Ed) as (Eu & _).
  unfold append. rewrite Eu. cbn [app].
  change (toUSVString (js "key")) with (js "key").
  change (toUSVString (js "digest")) with (js "digest").
  rewrite <- settle_unfold. reflexivity.
Qed.

Lemma truthy_string_Some (s : jsstring) :
  s <> [] -> truthy_string (Some s) = true.
Proof. destruct s; [contradiction | reflexivity]. Qed.

(** X3: with a usable key and a URL that parses, the filters are turned
    into parameters first and a value without a string rejects the
    promise with the [TypeError]; then the digest is computed and its
    error rejects the promise; only then is [fetch] called, once, on the
    parsed URL with the key first, then the filters in the order of the
    object ([undefined] and [null] left out, reserved names plain, the
    others wrapped in [filter[...]], one parameter per list element), then
    the digest of 40 characters; the promise settles from what [fetch]
    gives.  For filters that are strings, numbers and lists of these
    within the length of an argument list, and a secret of 16 characters
    or more, the request is always made. *)
Theorem explorer_request_anatomy (max_arguments : nat) {URL J : Type}
    (new_URL : jsstring -> jsstring -> option URL)
    (fetch : URL * URLSearchParams -> outcome (@Full.response J))
    (endpoint baseUrl : jsstring) (filters : Full.object)
    (apiKey : jsstring) (apiSecret : option jsstring) (url : URL) :
  apiKey <> [] -> new_URL endpoint baseUrl = Some url ->
  (Full.wire_params filters = None ->
   Full.makeExplorerApiRequest max_arguments new_URL fetch endpoint filters
     (Some apiKey) apiSecret baseUrl
   = ([], Rejected (js Full.type_error)))
  /\ (forall wp message,
        Full.wire_params filters = Some wp ->
        Full.generateExplorerDigest max_arguments filters apiSecret
        = Throw message ->
        Full.makeExplorerApiRequest max_arguments new_URL fetch endpoint
          filters (Some apiKey) apiSecret baseUrl
        = ([], Rejected (js message)))
  /\ (forall wp d,
        Full.wire_params filters = Some wp ->
        Full.generateExplorerDigest max_arguments filters apiSecret
        = Return d ->
        List.length d = 40%nat
        /\ Full.makeExplorerApiRequest max_arguments new_URL fetch endpoint
             filters (Some apiKey) apiSecret baseUrl
           = Full.settle (js "Explorer")
               (fetch (url, (js "key", toUSVString apiKey)
                            :: wp ++ [(js "digest", d)])))
  /\ (forall typed, filters = Full.embed typed ->
        Full.lists_fit max_arguments filters -> valid_secret apiSecret ->
        exists d,
          generateExplorerDigest typed apiSecret = Return d
          /\ Full.makeExplorerApiRequest max_arguments new_URL fetch endpoint
               filters (Some apiKey) apiSecret baseUrl
             = Full.settle (js "Explorer")
                 (fetch (url, (js "key", toUSVString apiKey)
                              :: wire_params typed ++ [(js "digest", d)]))).
Proof.
  intros Hk Hurl. rewrite explorer_request_steps.
  rewrite (truthy_string_Some apiKey Hk), Hurl. cbn [string_or_undefined].
  split; [|split; [|split]].
  - intros ->. reflexivity.
  - intros wp m -> ->. reflexivity.
  - intros wp d -> Ed. rewrite Ed. split; [|reflexivity].
    apply (digest_toUSVString _ _ _ _ Ed).
  - intros typed -> Hfit Hs. rewrite embed_wire_params.
    rewrite embed_digest by exact Hfit.
    destruct (valid_secret_returns typed apiSecret Hs) as (s & _ & E).
    rewrite E. eexists. split; reflexivity.
Qed.

Lemma explorer_request_anatomy_witness :
  Full.makeExplorerApiRequest 1000 Full.parse_https (Full.echo 200)
    (js "/explorer/api/research_outputs")
    [(js "q", Full.JString (js "test")); (js "scope", Full.JUndefined);
     (js "type", Full.JArray [Full.JString (js "article");
                              Full.JString (js "dataset")]);
     (js "page[size]", Full.JNumber (number_of_Z 25))]
    (Some (js "k")) validSecret (js "https://www.altmetric.com")
  = ([], Resolved
           [(js "key", js "k"); (js "filter[q]", js "test");
            (js "filter[type][]", js "article");
            (js "filter[type][]", js "dataset");
            (js "page[size]", js "25");
            (js "digest", js "28b7e593b0bc0e1895645a370ef2dab1375d6bed")]).
Proof.
  destruct (explorer_request_anatomy 1000 Full.parse_https (Full.echo 200)
              (js "/explorer/api/research_outputs")
              (js "https://www.altmetric.com")
              [(js "q", Full.JString (js "test"));
               (js "scope", Full.JUndefined);
               (js "type", Full.JArray [Full.JString (js "article");
                                        Full.JString (js "dataset")]);
               (js "page[size]", Full.JNumber (number_of_Z 25))]
              (js "k") validSecret
              (js "https://www.altmetric.com/explorer/api/research_outputs"))
    as (_ & _ & H & _).
  - discriminate.
  - reflexivity.
  - destruct (H [(js "filter[q]", js "test");
                 (js "filter[type][]", js "article");
                 (js "filter[type][]", js "dataset");
                 (js "page[size]", js "25")]
                (js "28b7e593b0bc0e1895645a370ef2dab1375d6bed"))
      as (_ & E).
    + reflexivity.
    + vm_compute. reflexivity.
    + rewrite E. reflexivity.
Defined.

(** X4: without a usable key or secret no request is made: the promise is
    rejected whatever [fetch] would give and nothing is logged.  A missing
    key is reported first; then a URL that does not parse, then a filter
    value without a string, and only then the secret. *)
Theorem explorer_no_request_without_credentials (max_arguments : nat)
    {URL J : Type} (new_URL : jsstring -> jsstring -> option URL)
    (fetch1 fetch2 : URL * URLSearchParams -> outcome (@Full.response J))
    (endpoint baseUrl : jsstring) (filters : Full.object)
    (apiKey apiSecret : option jsstring) :
  truthy_string apiKey = false \/ invalid_secret apiSecret ->
  Full.makeExplorerApiRequest max_arguments new_URL fetch1 endpoint filters
    apiKey apiSecret baseUrl
  = Full.makeExplorerApiRequest max_arguments new_URL fetch2 endpoint filters
      apiKey apiSecret baseUrl
  /\ Full.makeExplorerApiRequest max_arguments new_URL fetch1 endpoint filters
       apiKey apiSecret baseUrl
     = ([], Rejected
              (if truthy_string apiKey then
                 match new_URL endpoint baseUrl with
                 | None => Full.invalid_url
                 | Some _ =>
                     match Full.wire_params filters with
                     | None => js Full.type_error
                     | Some _ => js secret_error
                     end
                 end
               else explorer_key_error)).
Proof.
  intros H. rewrite !explorer_request_steps.
  destruct (truthy_string apiKey) eqn:Ek; [|split; reflexivity].
  destruct H as [H|H]; [discriminate|].
  destruct (new_URL endpoint baseUrl) as [url|]; [|split; reflexivity].
  destruct (Full.wire_params filters) as [wp|]; [|split; reflexivity].
  rewrite (invalid_secret_throws max_arguments filters apiSecret H).
  split; reflexivity.
Qed.

Lemma explorer_no_request_without_credentials_witness :
  Full.makeExplorerApiRequest 1000 Full.parse_https (Full.echo 200)
    (js "/explorer/api/research_outputs")
    [(js "q", Full.JString (js "test"))] (Some (js "k")) (Some (js "short"))
    (js "https://www.altmetric.com")
  = ([], Rejected (js secret_error))
  /\ Full.makeExplorerApiRequest 1000 Full.parse_https (Full.echo 200)
       (js "/explorer/api/research_outputs")
       [(js "q", Full.JString (js "test"))] None (Some (js "short"))
       (js "https://www.altmetric.com")
     = ([], Rejected explorer_key_error).
Proof.
  split.
  - refine (proj2 (explorer_no_request_without_credentials 1000
                     Full.parse_https (Full.echo 200) (Full.echo 500)
                     _ _ _ (Some (js "k")) (Some (js "short")) _)).
    right. right; right. exists (js "short"). split; [reflexivity|].
    vm_compute. lia.
  - refine (proj2 (explorer_no_request_without_credentials 1000
                     Full.parse_https (Full.echo 200) (Full.echo 500)
                     _ _ _ None (Some (js "short")) _)).
    left. reflexivity.
Defined.

Lemma includes_nonFilterParams (k : jsstring) :
  includes nonFilterParams k = true <-> ExcludedKeys k.
Proof.
  unfold includes, nonFilterParams, ExcludedKeys, existsb.
  rewrite !orb_true_iff, !String_eqb_eq. intuition discriminate.
Qed.

Lemma includes_nonFilterParams_excluded (k : jsstring) :
  includes nonFilterParams k = includes excludeFromDigest k.
Proof.
  destruct (includes excludeFromDigest k) eqn:E.
  - apply includes_nonFilterParams, includes_excluded, E.
  - destruct (includes nonFilterParams k) eqn:E'; [|reflexivity].
    apply includes_nonFilterParams, includes_excluded in E'. congruence.
Qed.

Lemma entry_params_names (key : jsstring) (v : value) (name val : jsstring) :
  In (name, val) (entry_params key v) ->
  (ExcludedKeys key /\ name = key)
  \/ (~ ExcludedKeys key /\ exists rest, name = js "filter[" ++ rest).
Proof.
  unfold entry_params. destruct (includes nonFilterParams key) eqn:E.
  - intros [H|[]]. left. apply includes_nonFilterParams in E.
    split; [assumption|]. injection H as <- _.
    destruct E as [-> | [-> | ->]]; reflexivity.
  - intros H. right. split.
    { intros Hex. apply includes_nonFilterParams in Hex. congruence. }
    destruct v as [x|vs].
    + destruct H as [H|[]]. injection H as <- _.
      eexists. cbn. reflexivity.
    + apply in_map_iff in H. destruct H as (x & H & _). injection H as <- _.
      eexists. cbn. reflexivity.
Qed.

(** X5: every filter parameter of the query is named by one of the three
    reserved names or begins with [filter[]; none is named [key] or
    [digest], so a filter can neither replace nor repeat the key and the
    digest of the request. *)
Theorem filter_parameters_keep_clear_of_key_and_digest
    (filters : object) (name val : jsstring) :
  In (name, val) (wire_params filters) ->
  (ExcludedKeys name \/ exists rest, name = js "filter[" ++ rest)
  /\ name <> js "key" /\ name <> js "digest".
Proof.
  unfold wire_params. intros H. apply in_flat_map in H.
  destruct H as (key & _ & H).
  destruct (Get filters key) as [v|]; [|contradiction].
  apply entry_params_names in H.
  destruct H as [[Hex ->]|[_ (rest & ->)]].
  - split; [left; assumption|].
    destruct Hex as [-> | [-> | ->]]; split; discriminate.
  - split; [right; exists rest; reflexivity|]. split; discriminate.
Qed.

Lemma filter_parameters_keep_clear_of_key_and_digest_witness :
  js "filter[digest][]" <> js "key" /\ js "filter[digest][]" <> js "digest".
Proof.
  apply (filter_parameters_keep_clear_of_key_and_digest
           [(js "digest", arr [js "x"])] (js "filter[digest][]") (js "x")).
  left. reflexivity.
Defined.

Lemma Object_keys_snoc (o : object) (k : jsstring) (v : value) :
  is_array_index k = false ->
  Object_keys (o ++ [(k, v)]) = Object_keys o ++ [k].
Proof.
  intros H. unfold Object_keys, own_keys.
  rewrite map_app, !filter_app. cbn [map fst filter]. rewrite H.
  cbn [negb]. rewrite app_nil_r, app_assoc. reflexivity.
Qed.

Lemma Get_snoc_old (o : object) (k key : jsstring) (v : value) :
  In key (own_keys o) -> Get (o ++ [(k, v)]) key = Get o key.
Proof.
  intros H. rewrite Get_app. apply Get_In in H.
  destruct (Get o key); [reflexivity | contradiction].
Qed.

Lemma Get_snoc_new (o : object) (k : jsstring) (v : value) :
  ~ In k (own_keys o) -> Get (o ++ [(k, v)]) k = Some v.
Proof.
  intros H. rewrite Get_app.
  destruct (Get o k) eqn:E.
  - exfalso. apply H, Get_In. congruence.
  - cbn [Get]. rewrite String_eqb_refl. reflexivity.
Qed.

Lemma flat_map_ext_in {A B} (g1 g2 : A -> list B) (l : list A) :
  (forall x, In x l -> g1 x = g2 x) -> flat_map g1 l = flat_map g2 l.
Proof.
  induction l as [|x l IH]; intros H; [reflexivity|].
  cbn [flat_map]. rewrite (H x) by (left; reflexivity).
  rewrite IH; [reflexivity|]. intros y Hy. apply H. right; assumption.
Qed.

Lemma excluded_not_index (k : jsstring) :
  ExcludedKeys k -> is_array_index k = false.
Proof. intros [-> | [-> | ->]]; reflexivity. Qed.

Lemma remaining_keys_snoc (filters : object) (k : jsstring) (v : value) :
  remaining_keys (filters ++ [(k, v)])
  = remaining_keys filters
      ++ (if includes excludeFromDigest k then [] else [k]).
Proof.
  unfold remaining_keys, own_keys. rewrite map_app, filter_app.
  cbn [map fst filter]. destruct (includes excludeFromDigest k); reflexivity.
Qed.

Lemma keys_snoc (l : list jsstring) (k : jsstring) :
  is_array_index k = false ->
  fold_right insert_index [] (filter is_array_index (l ++ [k]))
    ++ filter (fun k => negb (is_array_index k)) (l ++ [k])
  = (fold_right insert_index [] (filter is_array_index l)
       ++ filter (fun k => negb (is_array_index k)) l) ++ [k].
Proof.
  intros H. rewrite !filter_app. cbn [filter]. rewrite H.
  cbn [negb]. rewrite app_nil_r, app_assoc. reflexivity.
Qed.

Lemma values_Object_keys_snoc (o : Full.object) (k : jsstring)
    (v : Full.jsvalue) :
  is_array_index k = false ->
  Full.Object_keys (o ++ [(k, v)]) = Full.Object_keys o ++ [k].
Proof.
  intros H. unfold Full.Object_keys, Full.own_keys.
  rewrite map_app. cbn [map fst]. apply keys_snoc, H.
Qed.

Lemma values_Object_keys_perm (o : Full.object) :
  Permutation (Full.Object_keys o) (Full.own_keys o).
Proof.
  unfold Full.Object_keys.
  rewrite <- (filter_partition_perm is_array_index (Full.own_keys o)) at 3.
  apply Permutation_app_tail.
  induction (filter is_array_index (Full.own_keys o)) as [|k l IH]; simpl.
  - constructor.
  - rewrite insert_index_perm. constructor; assumption.
Qed.

Lemma values_Get_old (o1 o2 : Full.object) (key : jsstring) :
  In key (Full.own_keys o1) -> Full.Get (o1 ++ o2) key = Full.Get o1 key.
Proof.
  induction o1 as [|[k v] o1 IH]; [intros []|].
  cbn [Full.own_keys map fst In app Full.Get].
  destruct (String_eqb k key) eqn:E; [reflexivity|].
  intros [H|H]; [|apply IH, H].
  subst key. rewrite String_eqb_refl in E. discriminate E.
Qed.

Lemma values_Get_new (o1 o2 : Full.object) (key : jsstring) :
  ~ In key (Full.own_keys o1) -> Full.Get (o1 ++ o2) key = Full.Get o2 key.
Proof.
  induction o1 as [|[k v] o1 IH]; [reflexivity|].
  cbn [Full.own_keys map fst In app Full.Get]. intros H.
  destruct (String_eqb k key) eqn:E.
  - apply String_eqb_eq in E. tauto.
  - apply IH. tauto.
Qed.

Lemma entries_params_app (l1 l2 : list (jsstring * Full.jsvalue)) :
  Full.entries_params (l1 ++ l2)
  = match Full.entries_params l1, Full.entries_params l2 with
    | Some a, Some b => Some (a ++ b)
    | _, _ => None
    end.
Proof.
  induction l1 as [|[key v] l1 IH].
  - cbn [app Full.entries_params]. destruct (Full.entries_params l2); reflexivity.
  - cbn [app Full.entries_params]. rewrite IH.
    destruct (Full.entry_params key v); [|reflexivity].
    destruct (Full.entries_params l1); [|reflexivity].
    destruct (Full.entries_params l2); [|reflexivity].
    rewrite app_assoc. reflexivity.
Qed.

Lemma values_wire_params_snoc (filters : Full.object) (k : jsstring)
    (v : Full.jsvalue) :
  ~ In k (Full.own_keys filters) -> is_array_index k = false ->
  Full.wire_params (filters ++ [(k, v)])
  = match Full.wire_params filters, Full.entry_params k v with
    | Some wp, Some p => Some (wp ++ p)
    | _, _ => None
    end.
Proof.
  intros Hnew Hidx. unfold Full.wire_params, Full.Object_entries.
  rewrite values_Object_keys_snoc by assumption.
  rewrite map_app, entries_params_app. cbn [map Full.entries_params].
  rewrite values_Get_new by assumption. cbn [Full.Get].
  rewrite String_eqb_refl.
  replace (map (fun key => (key, Full.Get (filters ++ [(k, v)]) key))
               (Full.Object_keys filters))
    with (map (fun key => (key, Full.Get filters key))
              (Full.Object_keys filters)).
  - destruct (Full.entries_params _); [|reflexivity].
    destruct (Full.entry_params k v); [|reflexivity].
    rewrite app_nil_r. reflexivity.
  - apply map_ext_in. intros key Hkey. rewrite values_Get_old; [reflexivity|].
    eapply Permutation_in; [apply values_Object_keys_perm | exact Hkey].
Qed.

Lemma push_keys_ext (max_arguments : nat) (f1 f2 : Full.object)
    (keys : list jsstring) (pushed : list Full.jsvalue) :
  (forall key, In key keys -> Full.Get f1 key = Full.Get f2 key) ->
  Full.push_keys max_arguments f1 keys pushed
  = Full.push_keys max_arguments f2 keys pushed.
Proof.
  revert pushed; induction keys as [|key rest IH]; intros pushed H;
    [reflexivity|].
  cbn [Full.push_keys]. unfold Full.push_key.
  rewrite (H key) by (left; reflexivity).
  destruct (Full.Get f2 key);
    try (apply IH; intros k' Hk'; apply H; right; exact Hk').
  destruct (max_arguments <? List.length elements)%nat; [reflexivity|].
  apply IH. intros k' Hk'. apply H. right; exact Hk'.
Qed.

Lemma values_filterKeys_In (filters : Full.object) (k : jsstring) :
  In k (Full.filterKeys filters) -> In k (Full.own_keys filters).
Proof.
  unfold Full.filterKeys. intros H.
  apply (Permutation_in _ (Array_sort_perm _)) in H.
  apply filter_In in H. destruct H as [H _].
  eapply Permutation_in; [apply values_Object_keys_perm | exact H].
Qed.

(** X6: a reserved entry (order or paging) added to a filter set leaves the
    result of the digest as it was, under any secret and whatever its
    value is; it adds one plain parameter of its own name when the value
    has a string, none when the value is [undefined] or [null], and makes
    the conversion fail when the value has no string. *)
Theorem reserved_filter_is_sent_but_not_signed (max_arguments : nat)
    (filters : Full.object) (k : jsstring) (v : Full.jsvalue)
    (secret : option jsstring) :
  ~ In k (Full.own_keys filters) -> ExcludedKeys k ->
  Full.wire_params (filters ++ [(k, v)])
  = match Full.wire_params filters, Full.detail_param k v with
    | Some wp, Some p => Some (wp ++ p)
    | _, _ => None
    end
  /\ Full.detail_param k v
     = (if Full.is_nullish v then Some []
        else match Full.ToString v with
             | Some s => Some [(k, toUSVString s)]
             | None => None
             end)
  /\ Full.generateExplorerDigest max_arguments (filters ++ [(k, v)]) secret
     = Full.generateExplorerDigest max_arguments filters secret.
Proof.
  intros Hnew Hex.
  assert (Hidx : is_array_index k = false) by (apply excluded_not_index, Hex).
  assert (Hu : toUSVString k = k)
    by (destruct Hex as [-> | [-> | ->]]; reflexivity).
  split; [|split].
  - rewrite values_wire_params_snoc by assumption.
    replace (Full.entry_params k v) with (Full.detail_param k v);
      [reflexivity|].
    unfold Full.entry_params, Full.detail_param.
    rewrite (proj2 (includes_nonFilterParams k) Hex). reflexivity.
  - unfold Full.detail_param. rewrite Hu.
    destruct v; try reflexivity; cbn [Full.is_nullish];
      destruct (Full.ToString _); reflexivity.
  - unfold Full.generateExplorerDigest.
    destruct secret as [s|]; [|reflexivity].
    destruct (secret_rejected (Some s)); [reflexivity|].
    assert (Hkeys : Full.filterKeys (filters ++ [(k, v)])
                    = Full.filterKeys filters).
    { unfold Full.filterKeys.
      rewrite values_Object_keys_snoc, filter_app by assumption.
      cbn [filter]. rewrite (proj2 (includes_excluded k) Hex).
      cbn [negb]. rewrite app_nil_r. reflexivity. }
    rewrite Hkeys.
    rewrite (push_keys_ext max_arguments (filters ++ [(k, v)]) filters);
      [reflexivity|].
    intros key Hkey. apply values_Get_old, values_filterKeys_In, Hkey.
Qed.

Lemma reserved_filter_is_sent_but_not_signed_witness :
  Full.wire_params
    [(js "q", Full.JString (js "test"));
     (js "page[number]", Full.JNumber (number_of_Z 2))]
  = Some [(js "filter[q]", js "test"); (js "page[number]", js "2")]
  /\ Full.generateExplorerDigest 1000
       [(js "q", Full.JString (js "test"));
        (js "page[number]", Full.JNumber (number_of_Z 2))] validSecret
     = Full.generateExplorerDigest 1000
         [(js "q", Full.JString (js "test"))] validSecret.
Proof.
  destruct (reserved_filter_is_sent_but_not_signed 1000
              [(js "q", Full.JString (js "test"))] (js "page[number]")
              (Full.JNumber (number_of_Z 2)) validSecret)
    as (W & _ & D).
  - intros [H|[]]. discriminate H.
  - right; left; reflexivity.
  - split; [exact W | exact D].
Defined.

Lemma filterString_tokens (filters : object) :
  filterString filters = intercalate (js "|") (signed_tokens filters).
Proof. apply filterString_canonical. Qed.

Lemma filterString_length (filters : object) :
  List.length (filterString filters)
  = (list_sum (map (@List.length code_unit) (signed_tokens filters))
     + (List.length (signed_tokens filters) - 1))%nat.
Proof.
  rewrite filterString_tokens, intercalate_length.
  cbn [js List.length map list_ascii_of_string]. lia.
Qed.

Lemma signed_tokens_snoc (filters : object) (k : jsstring) (v : value) :
  ~ In k (own_keys filters) -> ~ ExcludedKeys k ->
  Permutation (signed_tokens (filters ++ [(k, v)]))
              (signed_tokens filters ++ k :: value_tokens v).
Proof.
  intros Hnew Hex. unfold signed_tokens.
  assert (HP : Permutation (filterKeys (filters ++ [(k, v)]))
                           (filterKeys filters ++ [k])).
  { rewrite filterKeys_perm, remaining_keys_snoc.
    rewrite not_excluded_includes by assumption.
    apply Permutation_app_tail. symmetry. apply filterKeys_perm. }
  rewrite (Permutation_flat_map _ HP), flat_map_app. cbn [flat_map].
  rewrite app_nil_r. unfold key_tokens at 2.
  rewrite Get_snoc_new by assumption.
  apply Permutation_app_tail.
  rewrite (flat_map_ext_in (key_tokens (filters ++ [(k, v)]))
             (key_tokens filters)); [reflexivity|].
  intros key Hkey. unfold key_tokens. rewrite Get_snoc_old; [reflexivity|].
  apply filterKeys_In in Hkey. tauto.
Qed.

Lemma signed_tokens_nil (filters : object) :
  signed_tokens filters = [] <-> filterKeys filters = [].
Proof.
  unfold signed_tokens. split.
  - destruct (filterKeys filters) as [|k ks]; [reflexivity|].
    cbn [flat_map]. unfold key_tokens at 1. discriminate.
  - intros ->. reflexivity.
Qed.

(** The array indices among the keys come out in ascending order. *)
Lemma insert_index_first (a : jsstring) (l : list jsstring) :
  Forall (fun b => index_of a <= index_of b) l -> insert_index a l = a :: l.
Proof.
  intros H. destruct l as [|b l]; [reflexivity|].
  inversion H as [|? ? Hb _]; subst. cbn [insert_index].
  replace (index_of b <? index_of a) with false; [reflexivity|].
  symmetry. apply N.ltb_ge. exact Hb.
Qed.

Lemma insert_index_sorted (a : jsstring) (l : list jsstring) :
  StronglySorted (fun x y => index_of x <= index_of y) l ->
  StronglySorted (fun x y => index_of x <= index_of y) (insert_index a l).
Proof.
  induction 1 as [|b l Hs IH Hb]; [repeat constructor|].
  cbn [insert_index]. destruct (index_of b <? index_of a) eqn:E.
  - apply N.ltb_lt in E. constructor; [exact IH|].
    apply (Permutation_Forall (Permutation_sym (insert_index_perm a l))).
    constructor; [lia | exact Hb].
  - apply N.ltb_ge in E. constructor; [constructor; assumption|].
    constructor; [exact E|].
    eapply Forall_impl; [|exact Hb]. intros c Hc. cbv beta in Hc. lia.
Qed.

Lemma fold_insert_index_sorted (init l : list jsstring) :
  StronglySorted (fun x y => index_of x <= index_of y) init ->
  StronglySorted (fun x y => index_of x <= index_of y)
                 (fold_right insert_index init l).
Proof.
  intros H. induction l as [|a l IH]; [exact H|].
  cbn [fold_right]. apply insert_index_sorted, IH.
Qed.

Lemma insert_index_remove (a k : jsstring) (l : list jsstring) :
  a <> k ->
  StronglySorted (fun x y => index_of x <= index_of y) l ->
  filter (fun x => negb (String_eqb x k)) (insert_index a l)
  = insert_index a (filter (fun x => negb (String_eqb x k)) l).
Proof.
  intros Hak. induction 1 as [|b l Hs IH Hb].
  - cbn [insert_index filter]. rewrite (proj2 (String_eqb_neq a k) Hak). reflexivity.
  - cbn [insert_index]. destruct (index_of b <? index_of a) eqn:E.
    + cbn [filter]. rewrite IH.
      destruct (String_eqb b k); cbn [negb]; [reflexivity|].
      cbn [insert_index]. rewrite E. reflexivity.
    + apply N.ltb_ge in E.
      change (filter (fun x => negb (String_eqb x k)) (a :: b :: l))
        with (if negb (String_eqb a k)
              then a :: filter (fun x => negb (String_eqb x k)) (b :: l)
              else filter (fun x => negb (String_eqb x k)) (b :: l)).
      rewrite (proj2 (String_eqb_neq a k) Hak). cbn [negb].
      symmetry. apply insert_index_first.
      apply Forall_forall. intros c Hc. apply filter_In in Hc.
      destruct Hc as [[<-|Hc] _]; [exact E|].
      rewrite Forall_forall in Hb. specialize (Hb c Hc). cbv beta in Hb. lia.
Qed.

Lemma filter_absent (k : jsstring) (l : list jsstring) :
  ~ In k l -> filter (fun x => negb (String_eqb x k)) l = l.
Proof.
  induction l as [|a l IH]; [reflexivity|]. intros H.
  cbn [filter].
  rewrite (proj2 (String_eqb_neq a k))
    by (intros ->; apply H; left; reflexivity).
  cbn [negb]. rewrite IH; [reflexivity|]. intros Hin. apply H. right; exact Hin.
Qed.

Lemma fold_insert_index_remove (k : jsstring) (l : list jsstring) :
  ~ In k l ->
  filter (fun x => negb (String_eqb x k)) (fold_right insert_index [k] l)
  = fold_right insert_index [] l.
Proof.
  induction l as [|a l IH]; intros H.
  - cbn [fold_right filter]. rewrite String_eqb_refl. reflexivity.
  - cbn [fold_right]. rewrite insert_index_remove.
    + rewrite IH; [reflexivity|]. intros Hin. apply H. right; exact Hin.
    + intros ->. apply H. left; reflexivity.
    + apply fold_insert_index_sorted. repeat constructor.
Qed.

(** A new key takes its place among the keys without moving the others. *)
Lemma Object_keys_remove (o : object) (k : jsstring) (v : value) :
  ~ In k (own_keys o) ->
  filter (fun x => negb (String_eqb x k)) (Object_keys (o ++ [(k, v)]))
  = Object_keys o.
Proof.
  intros Hnew. destruct (is_array_index k) eqn:Ek.
  - unfold Object_keys, own_keys. rewrite map_app. cbn [map fst].
    fold (own_keys o). rewrite !filter_app. cbn [filter]. rewrite Ek.
    cbn [negb]. rewrite app_nil_r, fold_right_app. cbn [fold_right].
    change (insert_index k []) with [k].
    rewrite fold_insert_index_remove.
    + f_equal. apply filter_absent. intros H. apply filter_In in H. tauto.
    + intros H. apply filter_In in H. tauto.
  - rewrite Object_keys_snoc, filter_app by assumption.
    cbn [filter]. rewrite String_eqb_refl. cbn [negb].
    rewrite app_nil_r. apply filter_absent. intros H. apply Hnew.
    eapply Permutation_in; [apply Object_keys_perm | exact H].
Qed.

Lemma flat_map_remove {B : Type} (g : jsstring -> list B) (k : jsstring)
    (l : list jsstring) :
  g k = [] ->
  flat_map g l = flat_map g (filter (fun x => negb (String_eqb x k)) l).
Proof.
  intros Hk. induction l as [|a l IH]; [reflexivity|].
  cbn [flat_map filter]. destruct (String_eqb a k) eqn:E; cbn [negb].
  - apply String_eqb_eq in E. subst a. rewrite Hk. exact IH.
  - cbn [flat_map]. rewrite IH. reflexivity.
Qed.

(** X7: A key that holds an empty list adds no parameter to the query, yet
    its name is signed: the signed string changes although the filter
    parameters sent are the same. *)
Theorem empty_list_is_signed_but_not_sent (filters : object) (k : jsstring) :
  ~ In k (own_keys filters) -> ~ ExcludedKeys k ->
  k <> [] \/ filterKeys filters <> [] ->
  wire_params (filters ++ [(k, VArray [])]) = wire_params filters
  /\ In k (signed_tokens (filters ++ [(k, VArray [])]))
  /\ filterString (filters ++ [(k, VArray [])]) <> filterString filters.
Proof.
  intros Hnew Hex Hne.
  pose proof (signed_tokens_snoc filters k (VArray []) Hnew Hex) as HP.
  cbn [value_tokens map] in HP.
  split; [|split].
  - unfold wire_params.
    rewrite (flat_map_remove _ k (Object_keys (filters ++ [(k, VArray [])]))).
    + rewrite Object_keys_remove by assumption.
      apply flat_map_ext_in. intros key Hkey.
      rewrite Get_snoc_old; [reflexivity|].
      eapply Permutation_in; [apply Object_keys_perm | exact Hkey].
    + rewrite Get_snoc_new by assumption. unfold entry_params.
      rewrite includes_nonFilterParams_excluded.
      rewrite not_excluded_includes by assumption. reflexivity.
  - eapply Permutation_in; [symmetry; exact HP|].
    apply in_or_app. right. left. reflexivity.
  - intros E. apply (f_equal (@List.length code_unit)) in E.
    rewrite !filterString_length in E.
    rewrite (Permutation_length HP) in E.
    rewrite (Permutation_list_sum
               (Permutation_map (@List.length code_unit) HP)) in E.
    rewrite map_app, list_sum_app, length_app in E.
    cbn [map list_sum fold_right List.length] in E.
    destruct (signed_tokens filters) as [|t ts] eqn:Et.
    + destruct Hne as [Hk|Hf].
      * destruct k; [congruence|]. cbn in E. discriminate E.
      * apply Hf, signed_tokens_nil, Et.
    + cbn [List.length] in E. unfold jsstring in E. lia.
Qed.

Lemma empty_list_is_signed_but_not_sent_witness :
  wire_params [(js "q", str "test"); (js "7", str "x"); (js "5", arr [])]
  = wire_params [(js "q", str "test"); (js "7", str "x")]
  /\ filterString [(js "q", str "test"); (js "7", str "x"); (js "5", arr [])]
     <> filterString [(js "q", str "test"); (js "7", str "x")].
Proof.
  destruct (empty_list_is_signed_but_not_sent
              [(js "q", str "test"); (js "7", str "x")] (js "5"))
    as (W & _ & S).
  - intros [H|[H|[]]]; discriminate H.
  - intros [H|[H|H]]; discriminate H.
  - left. discriminate.
  - split; [exact W | exact S].
Defined.

(* ------------------------------------------------------------------ *)
(** ** The Details request *)

Lemma append_param_params (sp : URLSearchParams) (key : jsstring)
    (v : Full.jsvalue) :
  Full.append_param sp (key, v)
  = option_map (app sp) (Full.detail_param key v).
Proof.
  unfold Full.append_param, Full.detail_param. cbn [fst snd].
  destruct v; try (cbn [option_map]; rewrite app_nil_r; reflexivity);
    unfold Full.append_value, append; destruct (Full.ToString _); reflexivity.
Qed.

Lemma forEach_append_param (entries : list (jsstring * Full.jsvalue))
    (sp : URLSearchParams) :
  Full.forEach Full.append_param entries (Some sp)
  = option_map (app sp) (Full.details_entries entries).
Proof.
  revert sp; induction entries as [|[key v] rest IH]; intros sp.
  - cbn. rewrite app_nil_r. reflexivity.
  - unfold Full.forEach. cbn [fold_left Full.details_entries].
    fold (Full.forEach Full.append_param rest (Full.append_param sp (key, v))).
    rewrite append_param_params.
    destruct (Full.detail_param key v) as [l|]; [|apply forEach_None].
    cbn [option_map]. rewrite IH.
    destruct (Full.details_entries rest); [|reflexivity].
    cbn [option_map]. rewrite app_assoc. reflexivity.
Qed.

(** The steps of [makeDetailsApiRequest], each with what ends it. *)
Lemma details_request_steps {URL J : Type}
    (new_URL : jsstring -> jsstring -> option URL)
    (fetch : URL * URLSearchParams -> outcome (@Full.response J))
    (endpoint baseUrl : jsstring) (params : Full.object)
    (apiKey : option jsstring) :
  Full.makeDetailsApiRequest new_URL fetch endpoint params apiKey baseUrl
  = if truthy_string apiKey then
      match new_URL endpoint baseUrl with
      | None => ([], Rejected Full.invalid_url)
      | Some url =>
          match Full.details_params params with
          | None => ([], Rejected (js Full.type_error))
          | Some ps =>
              Full.settle (js "Details")
                (fetch (url,
                        (js "key", toUSVString (string_or_undefined apiKey))
                        :: ps))
          end
      end
    else ([], Rejected details_key_error).
Proof.
  unfold Full.makeDetailsApiRequest.
  destruct (truthy_string apiKey); cbn [negb]; [|reflexivity].
  destruct (new_URL endpoint baseUrl) as [url|]; [|reflexivity].
  rewrite forEach_append_param. fold (Full.details_params params).
  destruct (Full.details_params params) as [ps|]; [|reflexivity].
  cbn [option_map]. unfold append. cbn [app].
  change (toUSVString (js "key")) with (js "key").
  rewrite <- settle_unfold. reflexivity.
Qed.

Lemma details_entries_names (entries : list (jsstring * Full.jsvalue))
    (ps : URLSearchParams) :
  Full.details_entries entries = Some ps ->
  map fst ps
  = map (fun entry => toUSVString (fst entry))
        (filter (fun entry => negb (Full.is_nullish (snd entry))) entries).
Proof.
  revert ps; induction entries as [|[key v] rest IH]; intros ps.
  - intros H. injection H as <-. reflexivity.
  - cbn [Full.details_entries filter snd].
    destruct (Full.detail_param key v) as [l|] eqn:El; [|discriminate].
    destruct (Full.details_entries rest) as [r|]; [|discriminate].
    intros H. injection H as <-. rewrite map_app, (IH r eq_refl).
    unfold Full.detail_param in El.
    destruct v; cbn [Full.is_nullish negb];
      try (injection El as <-; reflexivity);
      destruct (Full.ToString _); try discriminate El;
      injection El as <-; reflexivity.
Qed.

(** X8: [makeDetailsApiRequest] without a usable key is rejected with no
    request made, and so it is when the URL does not parse or a parameter
    has no string; otherwise it hands [fetch] the parsed URL with the key
    followed by one parameter for each entry of [params] that is neither
    [undefined] nor [null], under its name and in the order of the
    object, and settles from what [fetch] gives. *)
Theorem details_request_anatomy {URL J : Type}
    (new_URL : jsstring -> jsstring -> option URL)
    (fetch : URL * URLSearchParams -> outcome (@Full.response J))
    (endpoint baseUrl : jsstring) (params : Full.object)
    (apiKey : option jsstring) :
  Full.makeDetailsApiRequest new_URL fetch endpoint params apiKey baseUrl
  = (if truthy_string apiKey then
       match new_URL endpoint baseUrl with
       | None => ([], Rejected Full.invalid_url)
       | Some url =>
           match Full.details_params params with
           | None => ([], Rejected (js Full.type_error))
           | Some ps =>
               Full.settle (js "Details")
                 (fetch (url,
                         (js "key", toUSVString (string_or_undefined apiKey))
                         :: ps))
           end
       end
     else ([], Rejected details_key_error))
  /\ (forall ps, Full.details_params params = Some ps ->
        map fst ps
        = map (fun entry => toUSVString (fst entry))
              (Full.present_entries params)
        /\ List.length ps = List.length (Full.present_entries params))
  /\ Full.details_params
       [(js "param1", Full.JUndefined); (js "param2", Full.JNull);
        (js "param3", Full.JString (js "valid"))]
     = Some [(js "param3", js "valid")].
Proof.
  split; [apply details_request_steps|]. split; [|reflexivity].
  intros ps H.
  assert (E : map fst ps
              = map (fun entry => toUSVString (fst entry))
                    (Full.present_entries params))
    by (apply details_entries_names, H).
  split; [exact E|].
  rewrite <- (length_map fst ps), E, length_map. reflexivity.
Qed.

(* ------------------------------------------------------------------ *)
(** ** Identifier validation *)

Lemma numeric_spec (identifier : jsstring) :
  numeric identifier = true
  <-> identifier <> [] /\ Forall (fun c => 48 <= c <= 57) identifier.
Proof.
  unfold numeric. destruct identifier as [|c s].
  - split; [discriminate | intros [H _]; congruence].
  - rewrite forallb_forall, Forall_forall. split.
    + intros H. split; [discriminate|]. intros x Hx.
      specialize (H x Hx). unfold is_digit in H.
      apply andb_true_iff in H. rewrite !N.leb_le in H. exact H.
    + intros [_ H] x Hx. specialize (H x Hx). unfold is_digit.
      apply andb_true_iff. rewrite !N.leb_le. exact H.
Qed.

(** X9: an Altmetric id is accepted exactly when it is a non-empty run of the
    digits 0 to 9, whatever the identifier libraries do; the error quotes
    the identifier. *)
Theorem altmetric_id_must_be_numeric (lib : extractors) (identifier : jsstring) :
  validateIdentifier lib identifier (js "id")
  = (if numeric identifier then Resolved tt
     else Rejected (js "Invalid Altmetric ID format: " ++ identifier
                      ++ js ". Must be numeric."))
  /\ (numeric identifier = true
      <-> identifier <> [] /\ Forall (fun c => 48 <= c <= 57) identifier).
Proof.
  split; [|apply numeric_spec].
  unfold validateIdentifier.
  change (String_eqb (js "id") (js "id")) with true.
  destruct (numeric identifier); reflexivity.
Qed.

Ltac next_check :=
  unfold library_check at 1;
  match goal with
  | |- context [String_eqb ?t (js ?n)] =>
      destruct (String_eqb t (js n)) eqn:?
  end.

Lemma Rejected_inj {A} (a b : jsstring) :
  @Rejected A a = Rejected b -> a = b.
Proof. intros H; injection H; auto. Qed.

Lemma quoted_after (pre identifier : jsstring) :
  exists a b, pre ++ identifier = a ++ identifier ++ b.
Proof. exists pre, []. rewrite app_nil_r. reflexivity. Qed.

Lemma quoted_between (pre identifier post : jsstring) :
  exists a b, pre ++ identifier ++ post = a ++ identifier ++ b.
Proof. exists pre, post. reflexivity. Qed.

(** X10: only the nine listed identifier types are ever checked: any other
    type is accepted with any identifier, and every rejection carries a
    message that quotes the identifier. *)
Theorem only_listed_types_are_validated
    (lib : extractors) (identifier identifier_type : jsstring) :
  (~ In identifier_type validated_types ->
   validateIdentifier lib identifier identifier_type = Resolved tt)
  /\ (forall m,
        validateIdentifier lib identifier identifier_type = Rejected m ->
        In identifier_type validated_types
        /\ exists a b, m = a ++ identifier ++ b).
Proof.
  assert (Hrej : forall m,
            validateIdentifier lib identifier identifier_type = Rejected m ->
            In identifier_type validated_types
            /\ exists a b, m = a ++ identifier ++ b).
  { intros m. unfold validateIdentifier.
    destruct (String_eqb identifier_type (js "id")) eqn:Eid.
    - apply String_eqb_eq in Eid. subst identifier_type.
      destruct (numeric identifier); cbn [andb negb].
      + intros H. discriminate H.
      + intros H. apply Rejected_inj in H. subst m.
        split; [left; reflexivity|]. apply quoted_between.
    - cbn [andb].
      repeat (next_check;
              [ match goal with
                | E : String_eqb _ _ = true |- _ =>
                    apply String_eqb_eq in E; subst identifier_type
                end;
                match goal with
                | |- context [nothing_extracted ?x] =>
                    destruct (nothing_extracted x)
                end;
                [ intros H; apply Rejected_inj in H; subst m;
                  split; [cbv [validated_types In]; tauto|];
                  first [apply quoted_after | apply quoted_between]
                | intros H; discriminate H ]
              | ]).
      intros H. discriminate H. }
  split; [|exact Hrej].
  intros Hnot.
  destruct (validateIdentifier lib identifier identifier_type) as [[]|m] eqn:E;
    [reflexivity|].
  exfalso. apply Hnot. apply (Hrej m). reflexivity.
Qed.

Lemma only_listed_types_are_validated_witness :
  validateIdentifier finds_nothing (js "anything at all") (js "isbn")
  = Resolved tt.
Proof.
  apply (proj1 (only_listed_types_are_validated finds_nothing
                  (js "anything at all") (js "isbn"))).
  cbv [validated_types In]. intros H.
  repeat (destruct H as [H|H]; [discriminate H|]). exact H.
Defined.

(** X11: for each of the eight library-checked types, an identifier is
    accepted exactly when the library of that type extracts something
    from it, and rejected otherwise; the other libraries have no say. *)
Theorem library_types_follow_their_extractor
    (lib : extractors) (identifier identifier_type : jsstring)
    (extract : extractors -> jsstring -> option (list jsstring)) :
  In (identifier_type, extract) library_types ->
  (validateIdentifier lib identifier identifier_type = Resolved tt
   <-> nothing_extracted (extract lib identifier) = false)
  /\ (nothing_extracted (extract lib identifier) = true ->
      exists m, validateIdentifier lib identifier identifier_type = Rejected m).
Proof.
  intros Hin.
  assert (H : exists m,
            validateIdentifier lib identifier identifier_type
            = if nothing_extracted (extract lib identifier)
              then Rejected m else Resolved tt).
  { cbv [library_types In] in Hin.
    repeat (destruct Hin as [Hin|Hin];
            [ injection Hin as <- <-;
              unfold validateIdentifier, library_check;
              cbn [String_eqb N.eqb Pos.eqb andb js map list_ascii_of_string
                     N_of_ascii N_of_digits N.add N.mul Pos.add Pos.mul
                     Pos.succ];
              match goal with
              | |- context [nothing_extracted ?x] =>
                  destruct (nothing_extracted x);
                  [eexists; reflexivity | exists []; reflexivity]
              end
            | ]).
    contradiction. }
  destruct H as (m & H). rewrite H.
  destruct (nothing_extracted (extract lib identifier)).
  - split; [split; discriminate|]. intros _. exists m. reflexivity.
  - split; [split; reflexivity|]. discriminate.
Qed.

Lemma library_types_follow_their_extractor_witness :
  validateIdentifier finds_all (js "10.1000/182") (js "doi") = Resolved tt
  /\ exists m,
       validateIdentifier finds_nothing (js "10.1000/182") (js "doi")
       = Rejected m.
Proof.
  split.
  - apply (proj1 (library_types_follow_their_extractor finds_all
                    (js "10.1000/182") (js "doi") extractDoi
                    (or_introl eq_refl))).
    reflexivity.
  - apply (proj2 (library_types_follow_their_extractor finds_nothing
                    (js "10.1000/182") (js "doi") extractDoi
                    (or_introl eq_refl))).
    reflexivity.
Defined.

(* ------------------------------------------------------------------ *)
(** ** Encoded path components and the citation counts handler *)

Lemma HEX_digit_unreserved (d : N) : d < 16 -> uriUnreserved (HEX_digit d) = true.
Proof.
  intros H. unfold HEX_digit, uriUnreserved.
  destruct (N.ltb_spec d 10).
  - replace ((48 <=? 48 + d) && (48 + d <=? 57)) with true.
    + rewrite orb_true_r. reflexivity.
    + symmetry. apply andb_true_iff. rewrite !N.leb_le. lia.
  - replace ((65 <=? 55 + d) && (55 + d <=? 90)) with true; [reflexivity|].
    symmetry. apply andb_true_iff. rewrite !N.leb_le. lia.
Qed.

Lemma land_15_lt (x : N) : N.land x 0xF < 16.
Proof.
  change 0xF with (N.ones 4). rewrite N.land_ones.
  apply N.mod_lt. discriminate.
Qed.

Lemma percent_safe (bs : list byte) :
  Forall (fun c => uri_safe c = true) (flat_map percent bs).
Proof.
  induction bs as [|b bs IH]; [constructor|].
  cbn [flat_map percent app].
  constructor; [reflexivity|].
  constructor; [|constructor; [|exact IH]]; unfold uri_safe;
    rewrite HEX_digit_unreserved by apply land_15_lt; reflexivity.
Qed.

Lemma prepend_safe (pre : jsstring) (r : outcome jsstring) (e : jsstring) :
  Forall (fun c => uri_safe c = true) pre ->
  (forall e', r = Resolved e' -> Forall (fun c => uri_safe c = true) e') ->
  prepend pre r = Resolved e -> Forall (fun c => uri_safe c = true) e.
Proof.
  intros Hpre Hr. destruct r as [e'|m]; cbn [prepend]; [|discriminate].
  intros H. injection H as <-. apply Forall_app. split; auto.
Qed.

Lemma encodeURIComponent_safe_bounded (n : nat) (s e : jsstring) :
  (List.length s <= n)%nat -> encodeURIComponent s = Resolved e ->
  Forall (fun c => uri_safe c = true) e.
Proof.
  revert s e; induction n as [|n IH]; intros s e Hlen.
  - destruct s; [|simpl in Hlen; lia].
    intros H; injection H as <-. constructor.
  - destruct s as [|c rest]; [intros H; injection H as <-; constructor|].
    cbn [List.length] in Hlen. cbn [encodeURIComponent].
    destruct (uriUnreserved c) eqn:Eu.
    { apply prepend_safe.
      - constructor; [|constructor]. unfold uri_safe. rewrite Eu. reflexivity.
      - intros e'. apply IH. lia. }
    destruct (is_high_surrogate c).
    { destruct rest as [|d rest']; [discriminate|].
      destruct (is_low_surrogate d); [|discriminate].
      apply prepend_safe; [apply percent_safe|].
      intros e'. apply IH. cbn [List.length] in Hlen. lia. }
    destruct (is_low_surrogate c); [discriminate|].
    apply prepend_safe; [apply percent_safe|].
    intros e'. apply IH. lia.
Qed.

Lemma encodeURIComponent_safe (s e : jsstring) :
  encodeURIComponent s = Resolved e -> Forall (fun c => uri_safe c = true) e.
Proof. apply (encodeURIComponent_safe_bounded (List.length s)). lia. Qed.

(** X12: the request of [get_citation_counts]: for an identifier that passes
    validation and encodes to [e], with a usable key, the handler hands
    [new URL] the input [/v1/<type>/<e>] and the base of the
    configuration, the type being [doi] when left out and inserted as
    given; when that parses, [fetch] is called on the parsed URL with
    the key as the only parameter appended, when it does not, the call is
    rejected and nothing is fetched.  [e] consists of unreserved
    characters and percent escapes, so it holds no slash, question mark,
    hash, ampersand or space. *)
Theorem citation_counts_request {URL J : Type}
    (new_URL : jsstring -> jsstring -> option URL)
    (fetch : URL * URLSearchParams -> outcome (@Full.response J))
    (cfg : config) (lib : extractors) (stringify : J -> jsstring)
    (identifier e apiKey : jsstring) (identifier_type : option jsstring) :
  let t := match identifier_type with Some t => t | None => js "doi" end in
  validateIdentifier lib identifier t = Resolved tt ->
  encodeURIComponent identifier = Resolved e ->
  detailsApiKey cfg = Some apiKey -> apiKey <> [] ->
  Full.get_citation_counts new_URL fetch cfg lib stringify identifier
    identifier_type
  = content_text stringify
      match new_URL (js "/v1/" ++ t ++ js "/" ++ e) (detailsApiBaseUrl cfg) with
      | None => ([], Rejected Full.invalid_url)
      | Some url =>
          Full.settle (js "Details")
            (fetch (url, [(js "key", toUSVString apiKey)]))
      end
  /\ Forall (fun c => uri_safe c = true) e
  /\ Forall (fun c => ~ In c [47; 63; 35; 38; 32]) e.
Proof.
  intros t Hv He Hkey Hne.
  assert (Hsafe : Forall (fun c => uri_safe c = true) e)
    by (apply (encodeURIComponent_safe identifier); assumption).
  split; [|split; [exact Hsafe|]].
  - unfold Full.get_citation_counts. fold t. rewrite Hv, He, Hkey.
    rewrite details_request_steps, (truthy_string_Some apiKey Hne).
    reflexivity.
  - eapply Forall_impl; [|exact Hsafe].
    intros c Hc Hin. cbn [In] in Hin.
    destruct Hin as [<-|[<-|[<-|[<-|[<-|[]]]]]]; discriminate Hc.
Qed.

Lemma citation_counts_request_witness :
  Full.get_citation_counts Full.parse_https (Full.echo 200)
    (mkConfig (Some (js "k")) (js "https://api.altmetric.com") None None [])
    finds_all (fun q => fst (hd ([], []) q))
    (js "10.1000/a b?c") None
  = ([], Resolved (js "key"))
  /\ encodeURIComponent (js "10.1000/a b?c") = Resolved (js "10.1000%2Fa%20b%3Fc").
Proof.
  destruct (citation_counts_request Full.parse_https (Full.echo 200)
              (mkConfig (Some (js "k")) (js "https://api.altmetric.com")
                 None None [])
              finds_all (fun q => fst (hd ([], []) q))
              (js "10.1000/a b?c") (js "10.1000%2Fa%20b%3Fc") (js "k") None)
    as (E & _ & _).
  - reflexivity.
  - reflexivity.
  - reflexivity.
  - discriminate.
  - split; [rewrite E|]; reflexivity.
Defined.

(* ------------------------------------------------------------------ *)
(** ** The filters built by the Explorer handlers *)

Lemma Set_property_new (o : object) (k : jsstring) (v : value) :
  ~ In k (own_keys o) -> Set_property o k v = o ++ [(k, v)].
Proof.
  induction o as [|[k' v'] o IH]; intros H; [reflexivity|].
  cbn [Set_property]. cbn [own_keys map fst In] in H.
  destruct (String_eqb k' k) eqn:E.
  - apply String_eqb_eq in E. tauto.
  - cbn [app]. rewrite IH by tauto. reflexivity.
Qed.

Lemma Get_Set_property (o : object) (k t : jsstring) (v : value) :
  Get (Set_property o k v) t = if String_eqb k t then Some v else Get o t.
Proof.
  induction o as [|[k' v'] o IH]; cbn [Set_property Get].
  - reflexivity.
  - destruct (String_eqb k' k) eqn:E.
    + apply String_eqb_eq in E. subst k'. cbn [Get].
      destruct (String_eqb k t); reflexivity.
    + cbn [Get]. rewrite IH.
      destruct (String_eqb k' t) eqn:E', (String_eqb k t) eqn:E'';
        try reflexivity.
      apply String_eqb_eq in E', E''. subst k' k.
      rewrite String_eqb_refl in E. discriminate.
Qed.

Lemma own_keys_Set_property (o : object) (k : jsstring) (v : value) :
  own_keys (Set_property o k v)
  = if existsb (String_eqb k) (own_keys o) then own_keys o
    else own_keys o ++ [k].
Proof.
  induction o as [|[k' v'] o IH]; [reflexivity|].
  cbn [Set_property own_keys map fst existsb].
  destruct (String_eqb k' k) eqn:E.
  - apply String_eqb_eq in E. subst k'. rewrite String_eqb_refl. reflexivity.
  - replace (String_eqb k k') with false.
    + cbn [orb map fst]. fold (own_keys (Set_property o k v)). rewrite IH.
      fold (own_keys o). destruct (existsb (String_eqb k) (own_keys o));
        reflexivity.
    + symmetry. apply String_eqb_neq. apply String_eqb_neq in E. congruence.
Qed.

Lemma Set_property_well_formed (o : object) (k : jsstring) (v : value) :
  well_formed o -> well_formed (Set_property o k v).
Proof.
  unfold well_formed. rewrite own_keys_Set_property. intros H.
  destruct (existsb (String_eqb k) (own_keys o)) eqn:E; [assumption|].
  apply NoDup_app; [assumption | repeat constructor; intros [] |].
  intros x Hx [Heq|[]]. subst x.
  assert (existsb (String_eqb k) (own_keys o) = true); [|congruence].
  apply existsb_exists. exists k. split; [assumption | apply String_eqb_refl].
Qed.

Lemma fold_assign_well_formed (fields : list (jsstring * jsstring))
    (args acc : object) :
  well_formed acc -> well_formed (fold_left (assign_if_truthy args) fields acc).
Proof.
  revert acc; induction fields as [|fd rest IH]; intros acc H; [exact H|].
  cbn [fold_left]. apply IH. unfold assign_if_truthy.
  destruct (Get args (fst fd)) as [v|]; [|exact H].
  destruct (truthy (Some v)); [|exact H].
  apply Set_property_well_formed; assumption.
Qed.

Lemma Get_fold_assign (fields : list (jsstring * jsstring))
    (args acc : object) (name : jsstring) :
  Get (fold_left (assign_if_truthy args) fields acc) name
  = match assigned fields args name with
    | Some v => Some v
    | None => Get acc name
    end.
Proof.
  revert acc; induction fields as [|fd rest IH]; intros acc; [reflexivity|].
  cbn [fold_left assigned]. rewrite IH.
  destruct (assigned rest args name); [reflexivity|].
  unfold assign_if_truthy.
  destruct (Get args (fst fd)) as [v|] eqn:Ea.
  - destruct (truthy (Some v)).
    + rewrite Get_Set_property, andb_true_r.
      destruct (String_eqb (snd fd) name); reflexivity.
    + rewrite andb_false_r. reflexivity.
  - cbn [truthy]. rewrite andb_false_r. reflexivity.
Qed.

Lemma fold_assign_closed (fields : list (jsstring * jsstring))
    (args acc : object) :
  NoDup (map snd fields) ->
  (forall fd, In fd fields -> ~ In (snd fd) (own_keys acc)) ->
  fold_left (assign_if_truthy args) fields acc
  = acc ++ flat_map (field_entry args) fields.
Proof.
  revert acc; induction fields as [|fd rest IH]; intros acc Hnd Hfresh.
  - cbn. rewrite app_nil_r. reflexivity.
  - cbn [fold_left flat_map]. cbn [map] in Hnd.
    inversion Hnd as [|? ? Hnotin Hnd']; subst.
    assert (E : assign_if_truthy args acc fd = acc ++ field_entry args fd).
    { unfold assign_if_truthy, field_entry.
      destruct (Get args (fst fd)) as [v|]; [|rewrite app_nil_r; reflexivity].
      destruct (truthy (Some v)); [|rewrite app_nil_r; reflexivity].
      apply Set_property_new. apply Hfresh. left; reflexivity. }
    rewrite E, IH, <- app_assoc; [reflexivity | assumption |].
    intros fd' Hfd' Hin. unfold own_keys in Hin. rewrite map_app in Hin.
    apply in_app_or in Hin. destruct Hin as [Hin|Hin].
    + apply (Hfresh fd'); [right; assumption | exact Hin].
    + unfold field_entry in Hin.
      destruct (Get args (fst fd)) as [v|]; [|contradiction].
      destruct (truthy (Some v)); [|contradiction].
      destruct Hin as [Hin|[]]. cbn [fst] in Hin.
      apply Hnotin. rewrite Hin. apply in_map; assumption.
Qed.

(** X13: the statements [if (arg) filters[name] = arg] of a handler, when
    they write to distinct names, leave exactly the arguments that are
    true, under their filter names and in the order of the statements,
    whatever the order of the arguments; an argument that is left out,
    empty or zero adds nothing, and no name appears twice. *)
Theorem handler_filters_closed_form
    (fields : list (jsstring * jsstring)) (args : object) :
  NoDup (map snd fields) ->
  build_filters fields args = flat_map (field_entry args) fields
  /\ well_formed (build_filters fields args)
  /\ (forall name v,
        Get (build_filters fields args) name = Some v ->
        truthy (Some v) = true
        /\ exists arg, In (arg, name) fields /\ Get args arg = Some v).
Proof.
  intros Hnd.
  split; [|split].
  - unfold build_filters. rewrite fold_assign_closed; auto.
  - unfold build_filters. apply fold_assign_well_formed. constructor.
  - intros name v. unfold build_filters. rewrite Get_fold_assign.
    cbn [Get]. clear Hnd.
    induction fields as [|fd rest IH]; [discriminate|].
    cbn [assigned]. destruct (assigned rest args name) as [w|] eqn:Er.
    + intros H. destruct (IH H) as (Ht & arg & Hin & Ha).
      split; [exact Ht|]. exists arg. split; [right; exact Hin | exact Ha].
    + destruct (String_eqb (snd fd) name) eqn:En; [|discriminate].
      destruct (Get args (fst fd)) as [w|] eqn:Ea; [|discriminate].
      destruct (truthy (Some w)) eqn:Et; [|discriminate].
      cbn [andb]. intros H. injection H as <-. split; [exact Et|].
      exists (fst fd). apply String_eqb_eq in En. subst name.
      split; [left; destruct fd; reflexivity | exact Ea].
Qed.

Lemma handler_filters_closed_form_witness :
  build_filters research_outputs_fields
    [(js "page_size", num 25); (js "order", str "");
     (js "type", arr [js "article"]); (js "page_number", num 0);
     (js "q", str "test")]
  = [(js "q", str "test"); (js "type", arr [js "article"]);
     (js "page[size]", num 25)].
Proof.
  destruct (handler_filters_closed_form research_outputs_fields
              [(js "page_size", num 25); (js "order", str "");
               (js "type", arr [js "article"]); (js "page_number", num 0);
               (js "q", str "test")]) as (E & _ & _).
  - apply distinctb_NoDup. reflexivity.
  - rewrite E. reflexivity.
Defined.

Lemma assigned_agree (fields : list (jsstring * jsstring))
    (args1 args2 : object) (name : jsstring) :
  paging_is_reserved fields = true ->
  (forall arg, ~ In arg paging_arguments -> Get args1 arg = Get args2 arg) ->
  ~ ExcludedKeys name ->
  assigned fields args1 name = assigned fields args2 name.
Proof.
  intros Hres Hagree Hname.
  induction fields as [|fd rest IH]; [reflexivity|].
  cbn [paging_is_reserved forallb] in Hres.
  apply andb_true_iff in Hres. destruct Hres as [Hfd Hrest].
  cbn [assigned]. rewrite IH by exact Hrest.
  destruct (assigned rest args2 name); [reflexivity|].
  destruct (String_eqb (snd fd) name) eqn:En; [|reflexivity].
  apply String_eqb_eq in En. rewrite En in Hfd.
  rewrite (not_excluded_includes name Hname) in Hfd.
  apply Bool.eqb_prop in Hfd.
  assert (Ha : Get args1 (fst fd) = Get args2 (fst fd)).
  { apply Hagree. intros Hin.
    assert (includes paging_arguments (fst fd) = true); [|congruence].
    unfold includes. apply existsb_exists. exists (fst fd).
    split; [exact Hin | apply String_eqb_refl]. }
  rewrite Ha. reflexivity.
Qed.

Lemma explorer_tools_reserve_paging (tool : jsstring * list (jsstring * jsstring)) :
  In tool explorer_tools -> paging_is_reserved (snd tool) = true.
Proof.
  cbv [explorer_tools In]. intros H.
  repeat (destruct H as [<-|H]; [reflexivity|]). contradiction.
Qed.

Lemma embed_truthy (args : object) (arg : jsstring) :
  Full.truthy (Full.Get (Full.embed args) arg) = truthy (Get args arg).
Proof.
  rewrite embed_Get. destruct (Get args arg) as [[[s|x]|xs]|]; reflexivity.
Qed.

Lemma embed_Set_property (o : object) (key : jsstring) (v : value) :
  Full.Set_property (Full.embed o) key (Full.embed_value v)
  = Full.embed (Set_property o key v).
Proof.
  induction o as [|[k v'] o IH]; [reflexivity|].
  cbn [Full.embed map fst snd Full.Set_property Set_property].
  destruct (String_eqb k key); [reflexivity|].
  cbn [map fst snd]. f_equal. exact IH.
Qed.

Lemma embed_assign_if_truthy (args filters : object)
    (field : jsstring * jsstring) :
  Full.assign_if_truthy (Full.embed args) (Full.embed filters) field
  = Full.embed (assign_if_truthy args filters field).
Proof.
  unfold Full.assign_if_truthy, assign_if_truthy. cbv zeta.
  rewrite embed_truthy, embed_Get.
  destruct (Get args (fst field)) as [v|]; [|reflexivity].
  destruct (truthy (Some v)); [apply embed_Set_property | reflexivity].
Qed.

(** On arguments of the typed forms the statements build the typed
    filters. *)
Lemma embed_build_filters (fields : list (jsstring * jsstring))
    (args : object) :
  Full.build_filters fields (Full.embed args)
  = Full.embed (build_filters fields args).
Proof.
  unfold Full.build_filters, build_filters.
  change (@nil (jsstring * Full.jsvalue)) with (Full.embed []).
  generalize (@nil (jsstring * value)) as acc.
  induction fields as [|fd rest IH]; intros acc; [reflexivity|].
  cbn [fold_left]. rewrite embed_assign_if_truthy. apply IH.
Qed.

Lemma lists_fitb_fit (max_arguments : nat) (filters : Full.object) :
  Full.lists_fitb max_arguments filters = true ->
  Full.lists_fit max_arguments filters.
Proof.
  unfold Full.lists_fitb, Full.lists_fit. rewrite forallb_forall.
  intros H key elements Hin Hget. specialize (H key Hin).
  rewrite Hget in H. apply Nat.leb_le, H.
Qed.

(** X14: the sort order and the page never enter the signature of an Explorer
    tool: with usable credentials and a URL that parses, two calls of the
    same tool whose arguments (strings, numbers and lists of these that
    fit an argument list) differ only in [order], [page_number] and
    [page_size] make requests that end in the same digest parameter. *)
Theorem paging_arguments_are_not_signed (max_arguments : nat) {URL J : Type}
    (new_URL : jsstring -> jsstring -> option URL)
    (fetch : URL * URLSearchParams -> outcome (@Full.response J))
    (cfg : config) (stringify : J -> jsstring)
    (tool : jsstring * list (jsstring * jsstring)) (args1 args2 : object)
    (apiKey s : jsstring) (url : URL) :
  In tool explorer_tools ->
  explorerApiKey cfg = Some apiKey -> apiKey <> [] ->
  explorerApiSecret cfg = Some s -> (16 <= String_length s)%nat ->
  new_URL (fst tool) (explorerApiBaseUrl cfg) = Some url ->
  Full.lists_fit max_arguments (Full.embed (build_filters (snd tool) args1)) ->
  Full.lists_fit max_arguments (Full.embed (build_filters (snd tool) args2)) ->
  (forall arg, ~ In arg paging_arguments -> Get args1 arg = Get args2 arg) ->
  exists d,
    List.length d = 40%nat
    /\ Full.explore_handler max_arguments new_URL fetch cfg stringify tool
         (Full.embed args1)
       = content_text stringify
           (Full.settle (js "Explorer")
              (fetch (url, (js "key", toUSVString apiKey)
                           :: wire_params (build_filters (snd tool) args1)
                           ++ [(js "digest", d)])))
    /\ Full.explore_handler max_arguments new_URL fetch cfg stringify tool
         (Full.embed args2)
       = content_text stringify
           (Full.settle (js "Explorer")
              (fetch (url, (js "key", toUSVString apiKey)
                           :: wire_params (build_filters (snd tool) args2)
                           ++ [(js "digest", d)]))).
Proof.
  intros Htool Hkey Hne Hsec Hlen Hurl Hfit1 Hfit2 Hagree.
  assert (Hs : filterString (build_filters (snd tool) args1)
               = filterString (build_filters (snd tool) args2)).
  { apply filterString_agree.
    - unfold build_filters. apply fold_assign_well_formed. constructor.
    - unfold build_filters. apply fold_assign_well_formed. constructor.
    - intros name Hname. unfold build_filters. rewrite !Get_fold_assign.
      rewrite (assigned_agree (snd tool) args1 args2 name); auto.
      apply explorer_tools_reserve_paging; assumption. }
  exists (hex (HMAC.hmac_sha1 (utf8 s)
                 (utf8 (filterString (build_filters (snd tool) args1))))).
  split; [rewrite hex_length, hmac_length; reflexivity|].
  split.
  - unfold Full.explore_handler. rewrite embed_build_filters.
    rewrite explorer_request_steps, Hkey, Hsec, Hurl.
    rewrite (truthy_string_Some apiKey Hne), embed_wire_params.
    rewrite embed_digest, digest_valid by assumption. reflexivity.
  - unfold Full.explore_handler. rewrite embed_build_filters.
    rewrite explorer_request_steps, Hkey, Hsec, Hurl.
    rewrite (truthy_string_Some apiKey Hne), embed_wire_params.
    rewrite embed_digest, digest_valid by assumption. rewrite Hs. reflexivity.
Qed.

Lemma paging_arguments_are_not_signed_witness :
  exists d,
    snd (Full.explore_handler 1000 Full.parse_https (Full.echo 200)
           (mkConfig None [] (Some (js "k")) validSecret
              (js "https://www.altmetric.com"))
           (fun q => snd (last q ([], [])))
           (js "/explorer/api/research_outputs", research_outputs_fields)
           (Full.embed [(js "q", str "test"); (js "page_number", num 1)]))
    = Resolved d
    /\ snd (Full.explore_handler 1000 Full.parse_https (Full.echo 200)
              (mkConfig None [] (Some (js "k")) validSecret
                 (js "https://www.altmetric.com"))
              (fun q => snd (last q ([], [])))
              (js "/explorer/api/research_outputs", research_outputs_fields)
              (Full.embed [(js "order", str "score_desc"); (js "q", str "test");
                           (js "page_number", num 2)]))
       = Resolved d.
Proof.
  destruct (paging_arguments_are_not_signed 1000 Full.parse_https
              (Full.echo 200)
              (mkConfig None [] (Some (js "k")) validSecret
                 (js "https://www.altmetric.com"))
              (fun q => snd (last q ([], [])))
              (js "/explorer/api/research_outputs", research_outputs_fields)
              [(js "q", str "test"); (js "page_number", num 1)]
              [(js "order", str "score_desc"); (js "q", str "test");
               (js "page_number", num 2)]
              (js "k") (js "this-is-a-valid-secret-key")
              (js "https://www.altmetric.com/explorer/api/research_outputs"))
    as (d & _ & E1 & E2).
  - left. reflexivity.
  - reflexivity.
  - discriminate.
  - reflexivity.
  - vm_compute. lia.
  - reflexivity.
  - apply lists_fitb_fit. vm_compute. reflexivity.
  - apply lists_fitb_fit. vm_compute. reflexivity.
  - intros arg Harg. cbn [Get].
    destruct (String_eqb (js "q") arg) eqn:Eq.
    + destruct (String_eqb (js "order") arg) eqn:Eo; [|reflexivity].
      apply String_eqb_eq in Eq, Eo. rewrite <- Eq in Eo. discriminate Eo.
    + destruct (String_eqb (js "page_number") arg) eqn:Ep.
      { exfalso. apply Harg. apply String_eqb_eq in Ep. subst arg.
        right; left; reflexivity. }
      destruct (String_eqb (js "order") arg) eqn:Eo; [|reflexivity].
      exfalso. apply Harg. apply String_eqb_eq in Eo. subst arg.
      left; reflexivity.
  - exists d. rewrite E1, E2. unfold content_text, Full.settle, Full.echo.
    cbn [Full.ok Full.status Full.json snd Z.leb Z.compare andb Pos.compare
            Pos.compare_cont].
    rewrite !app_comm_cons, !last_last. split; reflexivity.
Defined.

(* ------------------------------------------------------------------ *)
(** ** Start-up check and the secret *)

(** X15: the start-up check only asks for a non-empty secret: an Explorer
    configuration whose secret has between 1 and 15 characters lets the
    server start, and then every Explorer tool call is rejected before
    any request is made, whatever the arguments and the network are:
    with the secret error, unless the URL does not parse or an argument
    has no string, which are reported before it. *)
Theorem short_secret_passes_startup_but_fails_calls (max_arguments : nat)
    {URL J : Type} (new_URL : jsstring -> jsstring -> option URL)
    (fetch1 fetch2 : URL * URLSearchParams -> outcome (@Full.response J))
    (cfg : config) (stringify : J -> jsstring)
    (tool : jsstring * list (jsstring * jsstring)) (args : Full.object)
    (s : jsstring) :
  truthy_string (explorerApiKey cfg) = true ->
  explorerApiSecret cfg = Some s ->
  s <> [] -> (String_length s < 16)%nat ->
  server_starts (detailsApiKey cfg) (explorerApiKey cfg) (explorerApiSecret cfg)
  = true
  /\ Full.explore_handler max_arguments new_URL fetch1 cfg stringify tool args
     = Full.explore_handler max_arguments new_URL fetch2 cfg stringify tool
         args
  /\ Full.explore_handler max_arguments new_URL fetch1 cfg stringify tool args
     = ([], Rejected
              match new_URL (fst tool) (explorerApiBaseUrl cfg) with
              | None => Full.invalid_url
              | Some _ =>
                  match Full.wire_params
                          (Full.build_filters (snd tool) args) with
                  | None => js Full.type_error
                  | Some _ => js secret_error
                  end
              end).
Proof.
  intros Hk Hs Hne Hlen.
  assert (Hinv : invalid_secret (explorerApiSecret cfg)).
  { rewrite Hs. right; right. exists s. split; [reflexivity | exact Hlen]. }
  assert (E : forall fetch,
             Full.explore_handler max_arguments new_URL fetch cfg stringify
               tool args
             = ([], Rejected
                      match new_URL (fst tool) (explorerApiBaseUrl cfg) with
                      | None => Full.invalid_url
                      | Some _ =>
                          match Full.wire_params
                                  (Full.build_filters (snd tool) args) with
                          | None => js Full.type_error
                          | Some _ => js secret_error
                          end
                      end)).
  { intros fetch. unfold Full.explore_handler.
    rewrite explorer_request_steps, Hk.
    destruct (new_URL (fst tool) (explorerApiBaseUrl cfg)); [|reflexivity].
    destruct (Full.wire_params (Full.build_filters (snd tool) args));
      [|reflexivity].
    rewrite (invalid_secret_throws _ _ _ Hinv). reflexivity. }
  split; [|split].
  - unfold server_starts, hasExplorerApi. rewrite Hk, Hs.
    destruct s; [congruence|]. cbn [truthy_string andb negb].
    rewrite andb_false_r. reflexivity.
  - rewrite !E. reflexivity.
  - apply E.
Qed.

Lemma short_secret_passes_startup_but_fails_calls_witness :
  server_starts None (Some (js "k")) (Some (js "short")) = true
  /\ Full.explore_handler 1000 Full.parse_https (Full.echo 200)
       (mkConfig None [] (Some (js "k")) (Some (js "short"))
          (js "https://www.altmetric.com"))
       (fun q => snd (last q ([], [])))
       (js "/explorer/api/research_outputs", research_outputs_fields)
       [(js "q", Full.JString (js "test"))]
     = ([], Rejected (js secret_error)).
Proof.
  destruct (short_secret_passes_startup_but_fails_calls 1000 Full.parse_https
              (Full.echo 200) (Full.echo 500)
              (mkConfig None [] (Some (js "k")) (Some (js "short"))
                 (js "https://www.altmetric.com"))
              (fun q => snd (last q ([], [])))
              (js "/explorer/api/research_outputs", research_outputs_fields)
              [(js "q", Full.JString (js "test"))] (js "short"))
    as (S & _ & E).
  - reflexivity.
  - reflexivity.
  - discriminate.
  - vm_compute. lia.
  - split; [exact S | rewrite E; reflexivity].
Defined.
